(** * Mastermind: a shallow embedding of [mastermind.py]

    The development follows the source file top-down: the Python
    primitives the program relies on ([str.upper], [list(str)],
    [''.join], integer formatting, [random.choices]), then [GameConfig],
    then the methods of [MastermindGame], then the interactive loop of
    [main].  Python integers are [Z], Python strings are [string] (text
    is taken over 8-bit code points; [str.upper] and [str.lower] are
    modelled on ASCII text, and what depends on the case of a guess is
    stated for guesses that are ASCII text), Python lists are [list] with stdpp's lookup and insert, and
    the scratch cells that the scoring loop overwrites with [None] are
    [option string].  Exceptions are explicit: a computation that may
    raise returns a [result]. *)

From Stdlib Require Import ZArith Lia Ascii String DecimalString.
From Stdlib Require DecimalZ DecimalPos.
From stdpp Require Import base decidable option list strings gmultiset.

Local Open Scope Z_scope.

(** ** Python primitives *)

Module Py.

(** The exceptions that the modelled code can raise. *)
Inductive exn : Set :=
| IndexError
| ValueError
| EOFError.

Inductive result (A : Type) : Type :=
| Ok (a : A)
| Raise (e : exn).
Arguments Ok {A} a.
Arguments Raise {A} e.

(** Sequencing: the first exception aborts what follows.  The instances
    give [result] stdpp's monadic notation [x ← m; k]. *)
#[global] Instance result_ret : MRet result := λ A a, Ok a.
#[global] Instance result_bind : MBind result := λ A B k m,
  match m with
  | Ok a => k a
  | Raise e => Raise e
  end.

(** [for i in range(n): s = body i s], stopping at the first exception. *)
Fixpoint for_indices {S} (idxs : list nat) (body : nat → S → result S) (s : S)
  : result S :=
  match idxs with
  | [] => Ok s
  | i :: idxs' => s' ← body i s; for_indices idxs' body s'
  end.

Definition for_range {S} (n : nat) (body : nat → S → result S) (s : S)
  : result S :=
  for_indices (seq 0 n) body s.

(** [l[i]] for a non-negative index. *)
Definition getitem {A} (l : list A) (i : nat) : result A :=
  match l !! i with
  | Some a => Ok a
  | None => Raise IndexError
  end.

(** [l.index(x)]: the position of the leftmost occurrence. *)
Definition index {A} `{EqDecision A} (l : list A) (x : A) : result nat :=
  match list_find (λ y, y = x) l with
  | Some (j, _) => Ok j
  | None => Raise ValueError
  end.

(** [x in l] *)
Definition contains {A} `{EqDecision A} (x : A) (l : list A) : bool :=
  bool_decide (x ∈ l).

(** [str.upper] and [str.lower] on ASCII text, where they act letter by
    letter: [a]-[z] and [A]-[Z] are exchanged and every other character
    below 128 is kept.  Characters from 128 on are kept here, which is
    not what Python does with them (it maps Latin-1 letters and can
    lengthen the string); what is stated about the case of a guess is
    stated for ASCII guesses only. *)
Definition upper_char (c : ascii) : ascii :=
  let n := N_of_ascii c in
  if ((97 <=? n) && (n <=? 122))%N then ascii_of_N (n - 32) else c.

Definition lower_char (c : ascii) : ascii :=
  let n := N_of_ascii c in
  if ((65 <=? n) && (n <=? 90))%N then ascii_of_N (n + 32) else c.

Fixpoint upper (s : string) : string :=
  match s with
  | EmptyString => EmptyString
  | String c s' => String (upper_char c) (upper s')
  end.

Fixpoint lower (s : string) : string :=
  match s with
  | EmptyString => EmptyString
  | String c s' => String (lower_char c) (lower s')
  end.

(** [list(s)]: the one-character strings of [s], in order. *)
Fixpoint list_of_str (s : string) : list string :=
  match s with
  | EmptyString => []
  | String c s' => String c EmptyString :: list_of_str s'
  end.

(** [''.join(l)] *)
Fixpoint join (l : list string) : string :=
  match l with
  | [] => EmptyString
  | x :: l' => x +:+ join l'
  end.

(** [', '.join(l)] and friends. *)
Fixpoint join_sep (sep : string) (l : list string) : string :=
  match l with
  | [] => EmptyString
  | [x] => x
  | x :: l' => x +:+ sep +:+ join_sep sep l'
  end.

(** [str(n)] for an integer, as an f-string formats it. *)
Definition str_of_int (n : Z) : string :=
  NilZero.string_of_int (Z.to_int n).

(** The code points that [str.strip] removes, below 256. *)
Definition is_space (c : ascii) : bool :=
  let n := N_of_ascii c in
  (((9 <=? n) && (n <=? 13)) || ((28 <=? n) && (n <=? 32))
   || (n =? 133) || (n =? 160))%N.

Fixpoint lstrip (s : string) : string :=
  match s with
  | EmptyString => EmptyString
  | String c s' => if is_space c then lstrip s' else s
  end.

Fixpoint rstrip (s : string) : string :=
  match s with
  | EmptyString => EmptyString
  | String c s' =>
      match rstrip s' with
      | EmptyString => if is_space c then EmptyString else String c EmptyString
      | r => String c r
      end
  end.

Definition strip (s : string) : string := rstrip (lstrip s).

(** [sub in s] for strings. *)
Definition substring_of (sub s : string) : Prop :=
  ∃ pre post, s = pre +:+ sub +:+ post.

End Py.

Import Py.

(** ** The random source

    [random.choices(population, k=k)] evaluates
    [population[floor(random() * n)]] once per draw, with [n] the length
    of the population.  [random()] returns a 53-bit fraction
    [m / 2^53] with [0 ≤ m < 2^53]; a random source is the sequence of
    the numerators [m], and the product with [n] is taken exactly. *)

Module Random.

Definition source : Type := nat → N.

Definition precision : N := 2 ^ 53.

(** The numerator of the [j]-th value [random()] returns. *)
Definition random (r : source) (j : nat) : N := (r j mod precision)%N.

(** [floor(random() * n)] at the [j]-th draw. *)
Definition floor_index (r : source) (j n : nat) : nat :=
  N.to_nat (random r j * N.of_nat n / precision)%N.

Fixpoint draws {A} (r : source) (population : list A) (j : nat) (k : nat)
  : result (list A) :=
  match k with
  | O => Ok []
  | S k' =>
      x ← getitem population (floor_index r j (length population));
      xs ← draws r population (S j) k';
      Ok (x :: xs)
  end.

(** [itertools.repeat(None, k)] yields nothing for [k ≤ 0]. *)
Definition choices {A} (r : source) (population : list A) (k : Z)
  : result (list A) :=
  draws r population 0 (Z.to_nat k).

End Random.

(** ** [GameConfig] *)

Module GameConfig.

Record t : Type := mk {
  COLORS : list string;
  CODE_LENGTH : Z;
  MAX_TRIES : Z
}.

Definition default_colors : list string := ["R"; "G"; "B"; "Y"; "W"; "O"].

(** The generated [__init__] followed by [__post_init__]: an omitted
    palette ([None]) becomes the six default colours. *)
Definition new (colors : option (list string)) (code_length max_tries : Z) : t :=
  {| COLORS := match colors with
               | None => default_colors
               | Some cs => cs
               end;
     CODE_LENGTH := code_length;
     MAX_TRIES := max_tries |}.

(** [GameConfig()] with every field left to its default. *)
Definition default : t := new None 4 10.

End GameConfig.

(** ** [MastermindGame] *)

Module MastermindGame.

Import GameConfig.

Record t : Type := mk {
  config : GameConfig.t;
  secret_code : list string;
  tries : Z;
  game_won : bool
}.

Definition _generate_secret_code (cfg : GameConfig.t) (r : Random.source)
  : result (list string) :=
  Random.choices r (COLORS cfg) (CODE_LENGTH cfg).

(** [__init__]: [config or GameConfig()], a dataclass instance being
    truthy. *)
Definition __init__ (cfg : option GameConfig.t) (r : Random.source) : result t :=
  let config := match cfg with
                | Some c => c
                | None => GameConfig.default
                end in
  code ← _generate_secret_code config r;
  Ok {| config := config; secret_code := code; tries := 0; game_won := false |}.

Definition _validate_guess (self : t) (guess : string) : bool :=
  if negb (Z.of_nat (String.length guess) =? CODE_LENGTH (config self)) then false
  else forallb (λ color, contains (upper color) (COLORS (config self)))
               (list_of_str guess).

(** The locals of [_evaluate_guess]; a consumed cell holds [None]. *)
Record scratch : Type := mkScratch {
  secret_copy : list (option string);
  guess_copy : list (option string);
  exact_matches : Z;
  color_matches : Z
}.

(** The body of the first loop: an exact match blanks both cells. *)
Definition exact_body (i : nat) (st : scratch) : result scratch :=
  gi ← getitem (guess_copy st) i;
  si ← getitem (secret_copy st) i;
  if decide (gi = si) then
    Ok {| secret_copy := <[i := None]> (secret_copy st);
          guess_copy := <[i := None]> (guess_copy st);
          exact_matches := exact_matches st + 1;
          color_matches := color_matches st |}
  else Ok st.

(** The body of the second loop: a guess cell that is not blanked and
    occurs among the secret cells blanks the leftmost such secret cell. *)
Definition color_body (i : nat) (st : scratch) : result scratch :=
  gi ← getitem (guess_copy st) i;
  if negb (bool_decide (gi = None)) && contains gi (secret_copy st) then
    j ← index (secret_copy st) gi;
    Ok {| secret_copy := <[j := None]> (secret_copy st);
          guess_copy := guess_copy st;
          exact_matches := exact_matches st;
          color_matches := color_matches st + 1 |}
  else Ok st.

(** [_evaluate_guess]: [self] enters only through [self.secret_code],
    which is the first argument here.  Both lists are copied, the copies
    are overwritten in place, and indexing past the end of the guess
    raises [IndexError]. *)
Definition _evaluate_guess (secret : list string) (guess : list string)
  : result (Z * Z) :=
  let st0 := {| secret_copy := Some <$> secret;
                guess_copy := Some <$> guess;
                exact_matches := 0;
                color_matches := 0 |} in
  st1 ← for_range (length (secret_copy st0)) exact_body st0;
  st2 ← for_range (length (guess_copy st1)) color_body st1;
  Ok (exact_matches st2, color_matches st2).

Definition invalid_message : string :=
  "Invalid guess! Please use valid colors and correct length.".

Definition won_message (tries : Z) : string :=
  "Congratulations! You've won in " +:+ str_of_int tries +:+ " tries!".

Definition lost_message (secret : list string) : string :=
  "Game Over! The secret code was " +:+ join secret.

Definition score_message (exact color : Z) : string :=
  "Exact matches: " +:+ str_of_int exact +:+ ", Color matches: "
  +:+ str_of_int color.

(** [play_turn] returns the game as the call leaves it together with
    what the call returns or raises. *)
Definition play_turn (self : t) (guess : string) : t * result (bool * string) :=
  let guess := upper guess in
  if negb (_validate_guess self guess) then (self, Ok (false, invalid_message))
  else
    let self := {| config := config self; secret_code := secret_code self;
                   tries := tries self + 1; game_won := game_won self |} in
    match _evaluate_guess (secret_code self) (list_of_str guess) with
    | Raise e => (self, Raise e)
    | Ok (exact, color) =>
        if exact =? CODE_LENGTH (config self) then
          ({| config := config self; secret_code := secret_code self;
              tries := tries self; game_won := true |},
           Ok (true, won_message (tries self)))
        else if MAX_TRIES (config self) <=? tries self then
          (self, Ok (true, lost_message (secret_code self)))
        else (self, Ok (true, score_message exact color))
    end.

End MastermindGame.

(** ** The interactive loop of [main] *)

Module Main.

Import GameConfig MastermindGame.

Definition nl : string := String (ascii_of_nat 10) EmptyString.

(** What the program writes: the prompt of an [input] call or the
    argument of a [print] call. *)
Inductive event : Type :=
| Prompt (text : string)
| Print (text : string).

(** How [main] ends: it returns, [sys.exit(0)] is called, or an
    exception escapes. *)
Inductive ending : Type :=
| Returned
| Exited (status : Z)
| Failed (e : exn).

Fixpoint repeat_str (s : string) (n : nat) : string :=
  match n with
  | O => EmptyString
  | S n' => s +:+ repeat_str s n'
  end.

Definition print_instructions (cfg : GameConfig.t) : list event :=
  [ Print (nl +:+ "=== MASTERMIND ===");
    Print (nl +:+ "Try to guess the secret code!");
    Print ("Available colors: " +:+ join_sep ", " (COLORS cfg));
    Print ("Code length: " +:+ str_of_int (CODE_LENGTH cfg));
    Print ("Maximum tries: " +:+ str_of_int (MAX_TRIES cfg));
    Print (nl +:+ "Enter your guess using color initials (e.g., RGBY)");
    Print "Press 'q' to quit the game";
    Print (repeat_str "=" 20 +:+ nl) ].

(** The [while] loop, reading the lines of [stdin] one per [input]
    call; [input] raises [EOFError] when none is left. *)
Fixpoint loop (game : MastermindGame.t) (stdin : list string)
  : MastermindGame.t * list event * ending :=
  if negb (game_won game) && (tries game <? MAX_TRIES (config game)) then
    let prompt := Prompt (nl +:+ "Enter guess #" +:+ str_of_int (tries game + 1)
                          +:+ ": ") in
    match stdin with
    | [] => (game, [prompt], Failed EOFError)
    | line :: stdin' =>
        let guess := strip line in
        if bool_decide (lower guess = "q") then
          (game, [prompt; Print "Thanks for playing!"], Exited 0)
        else
          match play_turn game guess with
          | (game', Raise e) => (game', [prompt], Failed e)
          | (game', Ok (is_valid, feedback)) =>
              let '(game'', out, e) := loop game' stdin' in
              (game'', prompt :: Print feedback :: out, e)
          end
    end
  else (game, [], Returned).

Definition main (r : Random.source) (stdin : list string)
  : option MastermindGame.t * list event * ending :=
  match __init__ None r with
  | Raise e => (None, [], Failed e)
  | Ok game =>
      let '(game', out, e) := loop game stdin in
      (Some game', (print_instructions (config game) ++ out), e)
  end.

End Main.

(** * Properties *)

Import GameConfig MastermindGame.

(** ** Well-formed games

    A secret code is a sequence of [CODE_LENGTH] symbols of the palette;
    this is what [__init__] establishes and what [play_turn], which
    assigns neither [config] nor [secret_code], keeps. *)

Definition secret_ok (g : MastermindGame.t) : Prop :=
  Z.of_nat (length (secret_code g)) = CODE_LENGTH (config g)
  ∧ Forall (λ c, c ∈ COLORS (config g)) (secret_code g).

(** The game is lost: the try budget is used up without a win. *)
Definition lost (g : MastermindGame.t) : Prop :=
  game_won g = false ∧ MAX_TRIES (config g) ≤ tries g.

(** A guess as [play_turn] sees it after normalisation is invalid when
    [_validate_guess] says so. *)
Definition invalid_guess (g : MastermindGame.t) (guess : string) : Prop :=
  Z.of_nat (String.length (upper guess)) ≠ CODE_LENGTH (config g)
  ∨ ∃ color, color ∈ list_of_str (upper guess) ∧ color ∉ COLORS (config g).

(** The game as an accepted guess leaves it. *)
Definition after_try (g : MastermindGame.t) (won : bool) : MastermindGame.t :=
  {| config := config g; secret_code := secret_code g;
     tries := tries g + 1; game_won := won |}.

(** The states the data model calls terminal. *)
Definition terminal (g : MastermindGame.t) : Prop :=
  game_won g = true ∨ tries g = MAX_TRIES (config g).

(** ** The two passes of [_evaluate_guess], structurally *)

Section Scoring.

Implicit Types s g : list string.
Implicit Types cells : list (option string).

(** The cells of [s] after the first pass against [g]. *)
Fixpoint mark s g : list (option string) :=
  match s, g with
  | x :: s', y :: g' => (if decide (x = y) then None else Some x) :: mark s' g'
  | _, _ => Some <$> s
  end.

Fixpoint exact_count s g : Z :=
  match s, g with
  | x :: s', y :: g' => (if decide (x = y) then 1 else 0) + exact_count s' g'
  | _, _ => 0
  end.

(** The symbols still available in a list of cells, with multiplicity. *)
Definition remaining cells : gmultiset string :=
  list_to_set_disj (omap id cells).

(** The symbols matched in place, with multiplicity. *)
Fixpoint matched s g : gmultiset string :=
  match s, g with
  | x :: s', y :: g' =>
      (if decide (x = y) then {[+ x +]} else ∅) ⊎ matched s' g'
  | _, _ => ∅
  end.

End Scoring.

(** The colour matches [_evaluate_guess] reports for a secret and a
    guess, as a count of shared unmatched symbols. *)
Definition color_count (s gs : list string) : Z :=
  Z.of_nat (size (remaining (mark gs s) ∩ remaining (mark s gs))).

(** The default configuration with secret code RGBY, at a given point
    of the game: the running example. *)
Definition standard_game (tries : Z) (won : bool) : MastermindGame.t :=
  {| config := GameConfig.default; secret_code := ["R"; "G"; "B"; "Y"];
     tries := tries; game_won := won |}.

(** The game is in progress: the loop of [main] would ask for a guess. *)
Definition in_progress (g : MastermindGame.t) : Prop :=
  game_won g = false ∧ tries g < MAX_TRIES (config g).

(** Successive [play_turn] calls on one game, keeping the game and
    dropping what each call returns. *)
Definition play_turns (g : MastermindGame.t) (guesses : list string)
  : MastermindGame.t :=
  foldl (λ g guess, (play_turn g guess).1) g guesses.

(** How many of the guesses [_validate_guess] accepts. *)
Definition accepted_count (g : MastermindGame.t) (guesses : list string) : Z :=
  Z.of_nat (length (List.filter (λ guess, _validate_guess g (upper guess))
                                guesses)).

(** A symbol that a normalised guess can contain: one character that is
    its own upper case. *)
Definition typable (c : string) : Prop :=
  ∃ a, c = String a EmptyString ∧ upper_char a = a.

(** [str.isascii]: every character is below 128.  On such text [upper]
    and [lower] are Python's [str.upper] and [str.lower]. *)
Definition isascii_char (c : ascii) : bool := (N_of_ascii c <? 128)%N.

Fixpoint isascii (s : string) : bool :=
  match s with
  | EmptyString => true
  | String c s' => isascii_char c && isascii s'
  end.

(** The decimal numeral [digits] denotes the integer [n], as the
    Standard Library reads numerals. *)
Definition reads_as (digits : string) (n : Z) : Prop :=
  Z.of_int <$> NilZero.int_of_string digits = Some n.

(** ** Multisets of symbols *)

Section Multisets.

Context `{Countable A}.
Implicit Types X Y V G : gmultiset A.

Lemma singleton_meet_present (a : A) X Y :
  ({[+ a +]} ⊎ ∅) ∩ (X ⊎ ({[+ a +]} ⊎ Y)) = {[+ a +]}.
Proof. multiset_solver. Qed.

Lemma singleton_meet_absent (a : A) X :
  a ∉ X → ({[+ a +]} ⊎ ∅) ∩ X = ∅.
Proof.
  intros Ha%not_elem_of_multiplicity. apply gmultiset_eq. intros x.
  rewrite multiplicity_intersection, multiplicity_disj_union,
    !multiplicity_empty.
  destruct (decide (x = a)) as [->|Hne]; [lia|].
  rewrite multiplicity_singleton_ne by done. lia.
Qed.

Lemma take_one_out (a : A) X Y :
  X ⊎ ({[+ a +]} ⊎ Y) = {[+ a +]} ⊎ (X ⊎ Y).
Proof. multiset_solver. Qed.

Lemma meet_subseteq_l X Y : X ∩ Y ⊆ X.
Proof. multiset_solver. Qed.

Lemma size_list_to_set_disj (l : list A) :
  size (list_to_set_disj l : gmultiset A) = length l.
Proof.
  induction l as [|x l IH]; [done|].
  rewrite list_to_set_disj_cons, gmultiset_size_disj_union,
    gmultiset_size_singleton, IH. done.
Qed.

Lemma meet_disj_union_l X Y G :
  (X ⊎ Y) ∩ (X ⊎ G) = X ⊎ (Y ∩ G).
Proof. multiset_solver. Qed.

(** Meeting [V ⊎ G] with [S0] can be done in two steps when [V] holds
    at most one symbol: first [V], then [G] with what is left. *)
Lemma meet_in_two_steps V G S0 S1 :
  (size V ≤ 1)%nat →
  S0 = (V ∩ S0) ⊎ S1 →
  (V ⊎ G) ∩ S0 = (V ∩ S0) ⊎ (G ∩ S1).
Proof.
  intros HV HS. apply gmultiset_eq. intros x.
  assert (multiplicity x V ≤ 1)%nat.
  { destruct (decide (multiplicity x V ≤ 1)%nat); [done|].
    assert ({[+ x +]} ⊎ {[+ x +]} ⊆ V) as Hle by multiset_solver.
    apply gmultiset_subseteq_size in Hle.
    rewrite gmultiset_size_disj_union, gmultiset_size_singleton in Hle. lia. }
  assert (multiplicity x S0
          = multiplicity x (V ∩ S0) + multiplicity x S1)%nat as HS'
    by (rewrite HS at 1; by rewrite multiplicity_disj_union).
  rewrite multiplicity_intersection in HS'.
  rewrite !multiplicity_disj_union, !multiplicity_intersection,
    multiplicity_disj_union. lia.
Qed.

End Multisets.

(** ** The scoring loops *)

Section Passes.

Implicit Types s g : list string.
Implicit Types cells sc gc : list (option string).

Lemma getitem_middle {A} (l1 l2 : list A) (x : A) :
  getitem (l1 ++ x :: l2) (length l1) = Ok x.
Proof. unfold getitem. by rewrite list_lookup_middle. Qed.

Lemma insert_middle {A} (l1 l2 : list A) (x y : A) :
  <[length l1 := y]> (l1 ++ x :: l2) = ((l1 ++ [y]) ++ l2).
Proof.
  rewrite insert_app_r_alt by lia.
  replace (length l1 - length l1)%nat with O by lia.
  simpl. by rewrite <- app_assoc.
Qed.

(** One iteration of the first pass at the first unvisited position. *)
Lemma exact_body_step sd gd (x y : string) sr gr e c :
  length sd = length gd →
  exact_body (length sd)
    {| secret_copy := (sd ++ Some x :: sr);
       guess_copy := (gd ++ Some y :: gr);
       exact_matches := e; color_matches := c |}
  = Ok (if decide (x = y)
        then {| secret_copy := ((sd ++ [None]) ++ sr);
                guess_copy := ((gd ++ [None]) ++ gr);
                exact_matches := e + 1; color_matches := c |}
        else {| secret_copy := ((sd ++ [Some x]) ++ sr);
                guess_copy := ((gd ++ [Some y]) ++ gr);
                exact_matches := e; color_matches := c |}).
Proof.
  intros Hlen. unfold exact_body.
  cbn [secret_copy guess_copy exact_matches color_matches].
  rewrite getitem_middle. rewrite Hlen at 1. rewrite getitem_middle.
  cbn [mbind result_bind].
  destruct (decide (Some y = Some x)) as [Heq|Hne].
  - injection Heq as ->. rewrite decide_True by done.
    rewrite insert_middle. rewrite Hlen at 1. by rewrite insert_middle.
  - rewrite decide_False by congruence. by rewrite <- !app_assoc.
Qed.

(** First pass: the loop over [range(len(secret_copy))]. *)
Lemma exact_loop_spec s : ∀ g sd gd e c,
  length sd = length gd →
  (length s ≤ length g)%nat →
  for_indices (seq (length sd) (length s)) exact_body
    {| secret_copy := (sd ++ (Some <$> s));
       guess_copy := (gd ++ (Some <$> g));
       exact_matches := e; color_matches := c |}
  = Ok {| secret_copy := (sd ++ mark s g);
          guess_copy := (gd ++ mark g s);
          exact_matches := e + exact_count s g; color_matches := c |}.
Proof.
  induction s as [|x s IH]; intros g sd gd e c Hlen Hle.
  - simpl. rewrite Z.add_0_r. by destruct g.
  - destruct g as [|y g]; [simpl in Hle; lia|].
    simpl in Hle. cbn [length seq for_indices fmap list_fmap mark exact_count].
    rewrite exact_body_step by done. cbn [mbind result_bind].
    destruct (decide (x = y)) as [->|Hne].
    + rewrite decide_True by done.
      replace (S (length sd)) with (length (sd ++ [None]))
        by (rewrite length_app; simpl; lia).
      rewrite IH; [|rewrite !length_app; simpl; lia|lia].
      rewrite <- !app_assoc. simpl. do 2 f_equal; lia.
    + rewrite decide_False by congruence.
      replace (S (length sd)) with (length (sd ++ [Some x]))
        by (rewrite length_app; simpl; lia).
      rewrite IH; [|rewrite !length_app; simpl; lia|lia].
      rewrite <- !app_assoc. simpl. do 2 f_equal; lia.
Qed.

(** A guess shorter than the secret makes the first pass fail. *)
Lemma exact_loop_short s : ∀ g sd gd e c,
  length sd = length gd →
  (length g < length s)%nat →
  for_indices (seq (length sd) (length s)) exact_body
    {| secret_copy := (sd ++ (Some <$> s));
       guess_copy := (gd ++ (Some <$> g));
       exact_matches := e; color_matches := c |}
  = Raise IndexError.
Proof.
  induction s as [|x s IH]; intros g sd gd e c Hlen Hlt; [simpl in Hlt; lia|].
  destruct g as [|y g].
  - cbn [length seq for_indices fmap list_fmap].
    unfold exact_body, getitem. cbn [guess_copy].
    rewrite app_nil_r, (lookup_ge_None_2 gd) by lia. done.
  - simpl in Hlt. cbn [length seq for_indices fmap list_fmap].
    rewrite exact_body_step by done. cbn [mbind result_bind].
    destruct (decide (x = y)) as [->|Hne].
    + replace (S (length sd)) with (length (sd ++ [None]))
        by (rewrite length_app; simpl; lia).
      apply IH; [rewrite !length_app; simpl; lia|lia].
    + replace (S (length sd)) with (length (sd ++ [Some x]))
        by (rewrite length_app; simpl; lia).
      apply IH; [rewrite !length_app; simpl; lia|lia].
Qed.

(** [x in l] guards [l.index(x)]: the leftmost occurrence splits [l]. *)
Lemma index_of_contained {A} `{EqDecision A} (l : list A) (x : A) :
  contains x l = true →
  ∃ l1 l2, l = (l1 ++ x :: l2) ∧ (x ∉ l1) ∧ index l x = Ok (length l1).
Proof.
  unfold contains, index. intros Hin%bool_decide_eq_true.
  destruct (list_find_elem_of (λ y, y = x) l x Hin eq_refl) as [[j y] Hfind].
  rewrite Hfind. apply list_find_Some in Hfind as (Hj & -> & Hbefore).
  exists (take j l), (drop (S j) l). split_and!.
  - by rewrite take_drop_middle.
  - intros (k & Hk)%list_elem_of_lookup_1.
    apply lookup_take_Some in Hk as [Hk Hlt]. by eapply Hbefore.
  - f_equal. rewrite length_take. apply lookup_lt_Some in Hj. lia.
Qed.

Lemma remaining_app cells1 cells2 :
  remaining (cells1 ++ cells2) = remaining cells1 ⊎ remaining cells2.
Proof.
  unfold remaining. rewrite omap_app.
  apply list_to_set_disj_app.
Qed.

Lemma remaining_nil : remaining [] = ∅.
Proof. done. Qed.

Lemma remaining_cons_Some (a : string) cells :
  remaining (Some a :: cells) = {[+ a +]} ⊎ remaining cells.
Proof. done. Qed.

Lemma remaining_cons_None cells : remaining (None :: cells) = remaining cells.
Proof. done. Qed.

Lemma elem_of_remaining (a : string) cells : a ∈ remaining cells ↔ Some a ∈ cells.
Proof.
  unfold remaining. rewrite elem_of_list_to_set_disj, list_elem_of_omap.
  split; [intros (y & Hy & Heq); simpl in Heq; by subst|].
  intros Hin. by exists (Some a).
Qed.

Lemma size_remaining cells : (size (remaining cells) ≤ length cells)%nat.
Proof.
  induction cells as [|[a|] cells IH].
  - done.
  - rewrite remaining_cons_Some, gmultiset_size_disj_union,
      gmultiset_size_singleton. simpl. lia.
  - rewrite remaining_cons_None. simpl. lia.
Qed.

(** One iteration of the second pass. *)
Lemma color_body_step gd gr (v : option string) sc e c :
  ∃ sc',
    color_body (length gd)
      {| secret_copy := sc; guess_copy := (gd ++ v :: gr);
         exact_matches := e; color_matches := c |}
    = Ok {| secret_copy := sc'; guess_copy := (gd ++ v :: gr);
            exact_matches := e;
            color_matches :=
              c + Z.of_nat (size (remaining [v] ∩ remaining sc)) |}
    ∧ length sc' = length sc
    ∧ remaining sc = (remaining [v] ∩ remaining sc) ⊎ remaining sc'.
Proof.
  unfold color_body. cbn [secret_copy guess_copy exact_matches color_matches].
  rewrite getitem_middle. cbn [mbind result_bind].
  destruct v as [a|].
  - rewrite bool_decide_eq_false_2 by done. cbn [negb andb].
    destruct (contains (Some a) sc) eqn:Hin.
    + destruct (index_of_contained _ _ Hin) as (l1 & l2 & -> & _ & ->).
      cbn [mbind result_bind]. exists (l1 ++ None :: l2).
      assert (remaining [Some a] ∩ remaining (l1 ++ Some a :: l2)
              = {[+ a +]}) as ->.
      { rewrite remaining_app, !remaining_cons_Some, remaining_nil.
        apply singleton_meet_present. }
      rewrite gmultiset_size_singleton. split_and!.
      * rewrite insert_middle, <- app_assoc. done.
      * rewrite !length_app. done.
      * rewrite !remaining_app, remaining_cons_Some, remaining_cons_None.
        apply take_one_out.
    + exists sc. apply bool_decide_eq_false in Hin.
      assert (remaining [Some a] ∩ remaining sc = ∅) as ->.
      { rewrite <- elem_of_remaining in Hin.
        rewrite remaining_cons_Some, remaining_nil.
        by apply singleton_meet_absent. }
      rewrite gmultiset_size_empty, Z.add_0_r. split_and!; [done..|].
      by rewrite (left_id ∅ (⊎)).
  - exists sc. simpl.
    assert (remaining [None] ∩ remaining sc = ∅) as ->
      by (rewrite remaining_cons_None, remaining_nil; apply (left_absorb ∅ (∩))).
    rewrite gmultiset_size_empty, Z.add_0_r. split_and!; [done..|].
    by rewrite (left_id ∅ (⊎)).
Qed.

(** Second pass: the loop over [range(len(guess_copy))] counts the
    symbols that the unmatched guess cells share with the unmatched
    secret cells, with multiplicity. *)
Lemma color_loop_spec gr : ∀ gd sc e c,
  ∃ sc',
    for_indices (seq (length gd) (length gr)) color_body
      {| secret_copy := sc; guess_copy := (gd ++ gr);
         exact_matches := e; color_matches := c |}
    = Ok {| secret_copy := sc'; guess_copy := (gd ++ gr);
            exact_matches := e;
            color_matches :=
              c + Z.of_nat (size (remaining gr ∩ remaining sc)) |}
    ∧ length sc' = length sc.
Proof.
  induction gr as [|v gr IH]; intros gd sc e c.
  - exists sc. simpl. split; [|done]. do 2 f_equal.
    assert (remaining [] ∩ remaining sc = ∅) as ->
      by (rewrite remaining_nil; apply (left_absorb ∅ (∩))).
    rewrite gmultiset_size_empty. lia.
  - cbn [length seq for_indices].
    destruct (color_body_step gd gr v sc e c) as (sc1 & -> & Hlen1 & Hsplit).
    cbn [mbind result_bind].
    replace (gd ++ v :: gr) with ((gd ++ [v]) ++ gr)
      by (by rewrite <- app_assoc).
    replace (S (length gd)) with (length (gd ++ [v]))
      by (rewrite length_app; simpl; lia).
    destruct (IH (gd ++ [v]) sc1 e
                (c + Z.of_nat (size (remaining [v] ∩ remaining sc))))
      as (sc2 & -> & Hlen2).
    exists sc2. split; [|congruence]. do 2 f_equal.
    rewrite <- Z.add_assoc, <- Nat2Z.inj_add, <- gmultiset_size_disj_union.
    do 3 f_equal.
    change (v :: gr) with ([v] ++ gr). rewrite remaining_app.
    symmetry. apply meet_in_two_steps; [|done].
    pose proof (size_remaining [v]) as Hsize. simpl in Hsize. lia.
Qed.

(** [_evaluate_guess] in closed form, for a guess at least as long as
    the secret. *)
Lemma evaluate_guess_spec s g :
  (length s ≤ length g)%nat →
  _evaluate_guess s g
  = Ok (exact_count s g,
        Z.of_nat (size (remaining (mark g s) ∩ remaining (mark s g)))).
Proof.
  intros Hle. unfold _evaluate_guess, for_range.
  cbn [secret_copy guess_copy]. rewrite length_fmap.
  pose proof (exact_loop_spec s g [] [] 0 0 eq_refl Hle) as H1.
  simpl in H1. rewrite H1. cbn [mbind result_bind guess_copy].
  rewrite Z.add_0_l.
  destruct (color_loop_spec (mark g s) [] (mark s g) (exact_count s g) 0)
    as (sc' & H2 & _).
  simpl in H2. rewrite H2. done.
Qed.

(** A guess shorter than the secret raises [IndexError]. *)
Lemma evaluate_guess_short s g :
  (length g < length s)%nat → _evaluate_guess s g = Raise IndexError.
Proof.
  intros Hlt. unfold _evaluate_guess, for_range.
  cbn [secret_copy guess_copy]. rewrite length_fmap.
  pose proof (exact_loop_short s g [] [] 0 0 eq_refl Hlt) as H1.
  simpl in H1. by rewrite H1.
Qed.

Lemma exact_count_comm s : ∀ g, exact_count s g = exact_count g s.
Proof.
  induction s as [|x s IH]; intros [|y g]; simpl; try done.
  rewrite IH. destruct (decide (x = y)) as [->|Hne].
  - by rewrite decide_True.
  - by rewrite decide_False by congruence.
Qed.

Lemma matched_comm s : ∀ g, matched s g = matched g s.
Proof.
  induction s as [|x s IH]; intros [|y g]; simpl; try done.
  rewrite IH. destruct (decide (x = y)) as [->|Hne].
  - by rewrite decide_True.
  - by rewrite decide_False by congruence.
Qed.

Lemma size_matched s : ∀ g, Z.of_nat (size (matched s g)) = exact_count s g.
Proof.
  induction s as [|x s IH]; intros [|y g]; simpl; try done.
  rewrite gmultiset_size_disj_union, Nat2Z.inj_add, IH.
  destruct (decide (x = y)).
  - by rewrite gmultiset_size_singleton.
  - by rewrite gmultiset_size_empty.
Qed.

Lemma remaining_fmap_Some s : remaining (Some <$> s) = list_to_set_disj s.
Proof.
  induction s as [|x s IH]; [done|].
  by rewrite fmap_cons, remaining_cons_Some, IH.
Qed.

(** The first pass splits a list into what it matched in place and what
    it left. *)
Lemma matched_remaining s : ∀ g,
  list_to_set_disj s = matched s g ⊎ remaining (mark s g).
Proof.
  induction s as [|x s IH]; intros [|y g].
  - simpl. rewrite remaining_nil. by rewrite (left_id ∅ (⊎)).
  - simpl. rewrite remaining_nil. by rewrite (left_id ∅ (⊎)).
  - cbn [matched mark]. rewrite remaining_fmap_Some.
    by rewrite (left_id ∅ (⊎)).
  - cbn [matched mark list_to_set_disj]. rewrite (IH g).
    destruct (decide (x = y)).
    + rewrite remaining_cons_None. by rewrite (assoc (⊎)).
    + rewrite remaining_cons_Some, (left_id ∅ (⊎)).
      rewrite !(assoc (⊎)). f_equal. apply (comm (⊎)).
Qed.

Lemma exact_count_nonneg s : ∀ g, 0 ≤ exact_count s g.
Proof. intros g. rewrite <- size_matched. lia. Qed.

Lemma exact_count_le s : ∀ g, exact_count s g ≤ Z.of_nat (length s).
Proof.
  induction s as [|x s IH]; intros [|y g]; simpl; try lia.
  specialize (IH g). destruct (decide (x = y)); lia.
Qed.

(** Every position matches exactly when the two lists are equal. *)
Lemma exact_count_full s : ∀ g,
  length s = length g →
  exact_count s g = Z.of_nat (length s) → s = g.
Proof.
  induction s as [|x s IH]; intros [|y g] Hlen Hfull; simpl in *; try done.
  pose proof (exact_count_le s g).
  destruct (decide (x = y)) as [->|Hne]; [|lia].
  f_equal. apply IH; lia.
Qed.

Lemma exact_count_diag s : exact_count s s = Z.of_nat (length s).
Proof.
  induction s as [|x s IH]; simpl; [done|].
  rewrite decide_True by done. lia.
Qed.

Lemma remaining_mark_diag s : remaining (mark s s) = ∅.
Proof.
  induction s as [|x s IH]; simpl; [done|].
  rewrite decide_True by done. by rewrite remaining_cons_None.
Qed.

End Passes.

(** ** Strings *)

Section Strings.

Lemma upper_char_idemp (c : ascii) : upper_char (upper_char c) = upper_char c.
Proof. destruct c as [[] [] [] [] [] [] [] []]; reflexivity. Qed.

Lemma upper_idemp (s : string) : upper (upper s) = upper s.
Proof.
  induction s as [|c s IH]; simpl; [done|].
  by rewrite upper_char_idemp, IH.
Qed.

Lemma length_upper (s : string) : String.length (upper s) = String.length s.
Proof. induction s as [|c s IH]; simpl; [done|]. by rewrite IH. Qed.

Lemma length_list_of_str (s : string) :
  length (list_of_str s) = String.length s.
Proof. induction s as [|c s IH]; simpl; [done|]. by rewrite IH. Qed.

(** The symbols of a normalised guess are their own upper case. *)
Lemma upper_symbol_fixed (s color : string) :
  color ∈ list_of_str (upper s) → upper color = color.
Proof.
  induction s as [|c s IH]; simpl; [by intros ?%elem_of_nil|].
  intros [->|Hin]%elem_of_cons; [|by apply IH].
  simpl. by rewrite upper_char_idemp.
Qed.

Lemma append_empty_r (s : string) : s +:+ "" = s.
Proof.
  induction s as [|c s IH]; [done|].
  change (String c (s +:+ "") = String c s). by rewrite IH.
Qed.

Lemma substring_of_middle (pre sub post : string) :
  substring_of sub (pre +:+ sub +:+ post).
Proof. by exists pre, post. Qed.

Lemma substring_of_suffix (pre sub : string) : substring_of sub (pre +:+ sub).
Proof. exists pre, "". by rewrite append_empty_r. Qed.

End Strings.

(** ** Validation *)

Section Validation.

Implicit Types g : MastermindGame.t.

Lemma validate_symbols (colors : list string) (s : string) :
  forallb (λ color, contains (upper color) colors) (list_of_str (upper s)) = true
  ↔ Forall (λ color, color ∈ colors) (list_of_str (upper s)).
Proof.
  assert (∀ l : list string,
    (∀ color, color ∈ l → upper color = color) →
    forallb (λ color, contains (upper color) colors) l = true
    ↔ Forall (λ color, color ∈ colors) l) as Hgen.
  { induction l as [|x l IH]; intros Hfix; simpl.
    - split; [constructor|done].
    - specialize (IH (λ color Hin, Hfix color (list_elem_of_further _ _ _ Hin))).
      rewrite andb_true_iff, IH. unfold contains.
      rewrite bool_decide_eq_true, (Hfix x) by left.
      split; [intros [??]; by constructor|by inversion 1]. }
  apply Hgen. intros color. apply upper_symbol_fixed.
Qed.

(** What [_validate_guess] accepts, on a normalised guess. *)
Lemma validate_guess_true g (guess : string) :
  _validate_guess g (upper guess) = true
  ↔ Z.of_nat (String.length (upper guess)) = CODE_LENGTH (config g)
    ∧ Forall (λ color, color ∈ COLORS (config g)) (list_of_str (upper guess)).
Proof.
  unfold _validate_guess.
  destruct (Z.eqb_spec (Z.of_nat (String.length (upper guess)))
                       (CODE_LENGTH (config g))) as [Heq|Hne]; simpl.
  - rewrite validate_symbols. tauto.
  - split; [done|]. by intros [? _].
Qed.

Lemma validate_guess_false g (guess : string) :
  _validate_guess g (upper guess) = false ↔ invalid_guess g guess.
Proof.
  unfold invalid_guess. rewrite <- not_true_iff_false, validate_guess_true.
  rewrite <- list.Exists_exists. split.
  - intros Hno.
    destruct (decide (Z.of_nat (String.length (upper guess))
                      = CODE_LENGTH (config g))) as [Hlen|Hlen]; [|by left].
    right. apply list.not_Forall_Exists; [intros ?; apply _|].
    intros Hall. by apply Hno.
  - intros [Hlen|Hex] [Hlen' Hall]; [done|].
    revert Hall. apply list.Exists_not_Forall. exact Hex.
Qed.

(** The secret code itself, typed in any case, is a valid guess. *)
Lemma validate_secret g (guess : string) :
  secret_ok g →
  list_of_str (upper guess) = secret_code g →
  _validate_guess g (upper guess) = true.
Proof.
  intros [Hlen Hpal] Heq. apply validate_guess_true.
  rewrite Heq. split; [|done].
  by rewrite <- Hlen, <- Heq, length_list_of_str.
Qed.

End Validation.

(** ** One turn *)

Section Turns.

Implicit Types g : MastermindGame.t.

Lemma play_turn_rejected g (guess : string) :
  _validate_guess g (upper guess) = false →
  play_turn g guess = (g, Ok (false, invalid_message)).
Proof. intros Hval. unfold play_turn. by rewrite Hval. Qed.

(** [play_turn] on an accepted guess, in closed form. *)
Lemma play_turn_accepted g (guess : string) :
  _validate_guess g (upper guess) = true →
  Z.of_nat (length (secret_code g)) ≤ CODE_LENGTH (config g) →
  play_turn g guess
  = let gs := list_of_str (upper guess) in
    let exact := exact_count (secret_code g) gs in
    if exact =? CODE_LENGTH (config g) then
      (after_try g true, Ok (true, won_message (tries g + 1)))
    else if MAX_TRIES (config g) <=? tries g + 1 then
      (after_try g (game_won g), Ok (true, lost_message (secret_code g)))
    else
      (after_try g (game_won g),
       Ok (true, score_message exact (color_count (secret_code g) gs))).
Proof.
  intros Hval Hlen. unfold play_turn. rewrite Hval.
  cbn [negb secret_code config tries game_won].
  apply validate_guess_true in Hval as [Hlen' _].
  rewrite evaluate_guess_spec
    by (rewrite length_list_of_str; lia).
  done.
Qed.

(** An accepted guess is counted whatever else happens, also when
    scoring raises. *)
Lemma play_turn_counts g (guess : string) :
  _validate_guess g (upper guess) = true →
  ∃ won, (play_turn g guess).1 = after_try g won
         ∧ (game_won g = true → won = true).
Proof.
  intros Hval. unfold play_turn. rewrite Hval.
  cbn [negb secret_code config tries game_won].
  destruct (_evaluate_guess _ _) as [[exact color]|e].
  - destruct (exact =? _); [by exists true|].
    destruct (_ <=? _); by exists (game_won g).
  - by exists (game_won g).
Qed.

End Turns.

(** ** The interactive loop *)

Section Loop.

Import Main.

(** The loop asks for a guess only while the game is open, so it never
    takes the try count past the budget, and when it returns the game is
    won or the budget is used up. *)
Lemma loop_bounded (stdin : list string) : ∀ g : MastermindGame.t,
  tries g ≤ MAX_TRIES (config g) →
  ∀ g' out e, loop g stdin = (g', out, e) →
    config g' = config g
    ∧ secret_code g' = secret_code g
    ∧ tries g ≤ tries g' ≤ MAX_TRIES (config g)
    ∧ (e = Returned →
       game_won g' = true ∨ tries g' = MAX_TRIES (config g)).
Proof.
  induction stdin as [|line stdin IH]; intros g Hle g' out e.
  - simpl.
    destruct (negb (game_won g) && (tries g <? MAX_TRIES (config g))) eqn:Hopen;
      intros [= <- <- <-].
    + split_and!; done || lia.
    + split_and!; [done|done|lia|lia|]. intros _.
      apply andb_false_iff in Hopen as [Hwon%negb_false_iff|Hfull%Z.ltb_ge];
        [by left|right; lia].
  - cbn [loop].
    destruct (negb (game_won g) && (tries g <? MAX_TRIES (config g))) eqn:Hopen.
    + apply andb_true_iff in Hopen as [_ Hlt%Z.ltb_lt].
      destruct (bool_decide _).
      { intros [= <- <- <-]. split_and!; done || lia. }
      destruct (play_turn g (strip line)) as [g1 res] eqn:Hturn.
      assert (config g1 = config g ∧ secret_code g1 = secret_code g
              ∧ tries g ≤ tries g1 ≤ tries g + 1) as (Hc & Hs & Ht).
      { destruct (_validate_guess g (upper (strip line))) eqn:Hval.
        - destruct (play_turn_counts g (strip line) Hval) as (won & Hg1 & _).
          rewrite Hturn in Hg1. simpl in Hg1. subst g1. simpl.
          split_and!; done || lia.
        - rewrite (play_turn_rejected g (strip line) Hval) in Hturn.
          injection Hturn as <- _. split_and!; done || lia. }
      destruct res as [[is_valid feedback]|err].
      * destruct (loop g1 stdin) as [[g2 out2] e2] eqn:Hrest.
        intros [= <- <- <-].
        destruct (IH g1 ltac:(rewrite Hc; lia) g2 out2 e2 Hrest)
          as (Hc2 & Hs2 & Ht2 & Hend).
        rewrite Hc in *. split_and!; congruence || lia || done.
      * intros [= <- <- <-]. split_and!; done || lia.
    + intros [= <- <- <-]. split_and!; [done|done|lia|lia|]. intros _.
      apply andb_false_iff in Hopen as [Hwon%negb_false_iff|Hfull%Z.ltb_ge];
        [by left|right; lia].
Qed.

End Loop.

(** ** Secret-code generation *)

Section Generation.

Lemma floor_index_lt (r : Random.source) (j n : nat) :
  (0 < n)%nat → (Random.floor_index r j n < n)%nat.
Proof.
  intros Hn. unfold Random.floor_index, Random.random.
  assert (r j mod Random.precision < Random.precision)%N as Hlt
    by (by apply N.mod_lt).
  assert (r j mod Random.precision * N.of_nat n / Random.precision
          < N.of_nat n)%N; [|lia].
  apply N.Div0.div_lt_upper_bound. nia.
Qed.

Lemma draws_nonempty {A} (r : Random.source) (population : list A) (k : nat) :
  population ≠ [] →
  ∀ j, ∃ code, Random.draws r population j k = Ok code
               ∧ length code = k
               ∧ Forall (λ x, x ∈ population) code.
Proof.
  intros Hne. induction k as [|k IH]; intros j.
  - exists []. by split_and!.
  - cbn [Random.draws]. unfold getitem.
    destruct (lookup_lt_is_Some_2 population
                (Random.floor_index r j (length population))) as [x Hx].
    { apply floor_index_lt. destruct population; [done|simpl; lia]. }
    rewrite Hx. cbn [mbind result_bind].
    destruct (IH (S j)) as (code & -> & Hlen & Hall).
    exists (x :: code). cbn [mbind result_bind]. split_and!; [done|simpl; lia|].
    constructor; [|done]. by eapply list_elem_of_lookup_2.
Qed.

Lemma draws_empty {A} (r : Random.source) (j k : nat) :
  Random.draws r (@nil A) j (S k) = Raise IndexError.
Proof. done. Qed.

(** [__init__] on a configuration with a non-empty palette and a
    non-negative code length returns a fresh, well-formed game. *)
Lemma init_secret_ok (cfg : GameConfig.t) (r : Random.source) :
  COLORS cfg ≠ [] →
  0 ≤ CODE_LENGTH cfg →
  ∃ g, __init__ (Some cfg) r = Ok g
       ∧ config g = cfg ∧ tries g = 0 ∧ game_won g = false ∧ secret_ok g.
Proof.
  intros Hne Hk. unfold __init__, _generate_secret_code, Random.choices.
  destruct (draws_nonempty r (COLORS cfg) (Z.to_nat (CODE_LENGTH cfg)) Hne 0)
    as (code & -> & Hlen & Hall).
  eexists. split; [reflexivity|].
  split_and!; [done..|]. split; simpl; [lia|done].
Qed.

(** [play_turn] keeps a well-formed game well formed. *)
Lemma play_turn_secret_ok (g : MastermindGame.t) (guess : string) :
  secret_ok g → secret_ok (play_turn g guess).1.
Proof.
  intros Hok. destruct (_validate_guess g (upper guess)) eqn:Hval.
  - by destruct (play_turn_counts g guess Hval) as (won & -> & _).
  - by rewrite play_turn_rejected.
Qed.

End Generation.

(** ** Worked examples *)

Example score_all_misplaced :
  _evaluate_guess ["R"; "G"; "B"; "Y"] (list_of_str "YBGR") = Ok (0, 4).
Proof. reflexivity. Qed.

Example score_repeated_guess :
  _evaluate_guess ["R"; "G"; "B"; "Y"] (list_of_str "RRRR") = Ok (1, 0).
Proof. reflexivity. Qed.

Example score_short_guess :
  _evaluate_guess ["R"; "G"; "B"; "Y"] (list_of_str "RGB") = Raise IndexError.
Proof. reflexivity. Qed.

Example first_try_win :
  play_turn (standard_game 0 false) "rgby"
  = (standard_game 1 true, Ok (true, "Congratulations! You've won in 1 tries!")).
Proof. reflexivity. Qed.

Example wrong_length_is_free :
  play_turn (standard_game 0 false) "RG"
  = (standard_game 0 false, Ok (false, invalid_message)).
Proof. reflexivity. Qed.

Example quit_stops_the_loop :
  Main.loop (standard_game 0 false) ["rgbw"; " Q "; "rgby"]
  = (standard_game 1 false,
     [Main.Prompt (Main.nl +:+ "Enter guess #1: ");
      Main.Print "Exact matches: 3, Color matches: 0";
      Main.Prompt (Main.nl +:+ "Enter guess #2: ");
      Main.Print "Thanks for playing!"],
     Main.Exited 0).
Proof. reflexivity. Qed.

(** ** What the messages show *)

Section Messages.

(** [str_of_int] writes the numeral that reads back as its argument. *)
Lemma str_of_int_reads (n : Z) : reads_as (str_of_int n) n.
Proof.
  unfold reads_as, str_of_int. rewrite NilZero.isi.
  - simpl. by rewrite DecimalZ.of_to.
  - destruct n as [|p|p]; simpl; try done.
    intros [= Hnil]. by apply DecimalPos.Unsigned.to_uint_nonnil in Hnil.
  - destruct n as [|p|p]; simpl; try done.
    intros [= Hnil]. by apply DecimalPos.Unsigned.to_uint_nonnil in Hnil.
Qed.

(** [join] is the Standard Library's concatenation with an empty
    separator. *)
Lemma join_concat (l : list string) : join l = String.concat "" l.
Proof.
  induction l as [|x l IH]; [done|].
  cbn [join String.concat]. rewrite IH.
  destruct l as [|y l]; [apply append_empty_r|done].
Qed.

(** The success message is no loss message, whatever code that shows. *)
Lemma won_message_not_game_over (n : Z) (shown : string) :
  won_message n ≠ "Game Over! The secret code was " +:+ shown.
Proof.
  intros Heq. apply (f_equal (String.get 0)) in Heq.
  vm_compute in Heq. discriminate.
Qed.

(** ASCII text stays ASCII under [upper]. *)
Lemma isascii_upper (s : string) : isascii s = true → isascii (upper s) = true.
Proof.
  induction s as [|c s IH]; simpl; [done|].
  intros [Hc Hs]%andb_true_iff. rewrite IH by done.
  rewrite andb_true_r. revert Hc.
  destruct c as [[] [] [] [] [] [] [] []]; by vm_compute.
Qed.

End Messages.

(** * The statements of the specification *)

Section Claims.

Implicit Types g : MastermindGame.t.
Implicit Types guess : string.

(** C1.  With secret code RRGB the guess RGRB scores two exact matches
    and two colour matches, and [play_turn] reports that pair in its
    message. *)
Theorem C1_duplicate_symbols :
  _evaluate_guess ["R"; "R"; "G"; "B"] (list_of_str (upper "RGRB")) = Ok (2, 2)
  ∧ play_turn {| config := GameConfig.default;
                 secret_code := ["R"; "R"; "G"; "B"];
                 tries := 0; game_won := false |} "RGRB"
    = ({| config := GameConfig.default;
          secret_code := ["R"; "R"; "G"; "B"];
          tries := 1; game_won := false |},
       Ok (true, "Exact matches: 2, Color matches: 2")).
Proof. split; vm_compute; reflexivity. Qed.

(** C2.  For a secret and a guess of the same length [_evaluate_guess]
    returns a pair of non-negative counts whose sum is at most that
    length; the sum is the number of symbols the two lists share when
    each occurrence is counted once (the size of the intersection of
    their multisets), so repeated symbols are never over-counted. *)
Theorem C2_matches_bounded (secret guess_list : list string) :
  length secret = length guess_list →
  ∃ exact color,
    _evaluate_guess secret guess_list = Ok (exact, color)
    ∧ 0 ≤ exact ∧ 0 ≤ color
    ∧ exact + color ≤ Z.of_nat (length secret)
    ∧ exact + color
      = Z.of_nat (size (list_to_set_disj secret
                        ∩ list_to_set_disj guess_list : gmultiset string)).
Proof.
  intros Hlen. eexists _, _. split; [apply evaluate_guess_spec; lia|].
  assert (exact_count secret guess_list
          + Z.of_nat (size (remaining (mark guess_list secret)
                            ∩ remaining (mark secret guess_list)))
          = Z.of_nat (size (list_to_set_disj secret
                            ∩ list_to_set_disj guess_list : gmultiset string)))
    as Hsum.
  { rewrite (matched_remaining secret guess_list),
      (matched_remaining guess_list secret), (matched_comm guess_list secret).
    rewrite <- size_matched, <- Nat2Z.inj_add, <- gmultiset_size_disj_union.
    do 2 f_equal. rewrite (comm (∩) (remaining (mark guess_list secret))).
    symmetry. apply meet_disj_union_l. }
  split_and!.
  - apply exact_count_nonneg.
  - lia.
  - rewrite Hsum, <- (size_list_to_set_disj secret).
    apply inj_le, gmultiset_subseteq_size, meet_subseteq_l.
  - exact Hsum.
Qed.

Lemma C2_matches_bounded_witness :
  length ["R"; "R"; "G"; "B"] = length ["R"; "G"; "R"; "B"]
  ∧ ∃ exact color,
      _evaluate_guess ["R"; "R"; "G"; "B"] ["R"; "G"; "R"; "B"]
      = Ok (exact, color)
      ∧ 0 ≤ exact ∧ 0 ≤ color
      ∧ exact + color ≤ Z.of_nat (length ["R"; "R"; "G"; "B"])
      ∧ exact + color
        = Z.of_nat (size (list_to_set_disj ["R"; "R"; "G"; "B"]
                          ∩ list_to_set_disj ["R"; "G"; "R"; "B"]
                          : gmultiset string)).
Proof.
  split; [reflexivity|].
  apply (C2_matches_bounded ["R"; "R"; "G"; "B"] ["R"; "G"; "R"; "B"]).
  reflexivity.
Defined.

(** Scoring the secret code against itself. *)
Lemma evaluate_secret (secret : list string) :
  _evaluate_guess secret secret = Ok (Z.of_nat (length secret), 0).
Proof.
  rewrite evaluate_guess_spec by done.
  rewrite exact_count_diag, remaining_mark_diag.
  by rewrite (left_absorb ∅ (∩)), gmultiset_size_empty.
Qed.

(** What [play_turn] does with a guess that normalises to the secret. *)
Lemma play_turn_secret g guess :
  secret_ok g →
  list_of_str (upper guess) = secret_code g →
  play_turn g guess = (after_try g true, Ok (true, won_message (tries g + 1))).
Proof.
  intros Hok Heq. pose proof Hok as [Hlen _].
  rewrite play_turn_accepted by (by apply validate_secret || lia).
  cbv zeta. rewrite Heq, exact_count_diag, Hlen.
  by rewrite Z.eqb_refl.
Qed.

(** C3.  A guess (ASCII text) whose normalised form is the secret code
    is accepted; it scores [CODE_LENGTH] exact matches and no colour
    match; the game is left won, with one more try used; and the
    message is "Congratulations! You've won in N tries!" with [N] the
    numeral of the tries used, so it contains "Congratulations" and that
    number. *)
Theorem C3_winning_guess g guess :
  secret_ok g →
  game_won g = false →
  isascii guess = true →
  list_of_str (upper guess) = secret_code g →
  _evaluate_guess (secret_code g) (list_of_str (upper guess))
  = Ok (CODE_LENGTH (config g), 0)
  ∧ ∃ g' message digits,
      play_turn g guess = (g', Ok (true, message))
      ∧ game_won g' = true
      ∧ tries g' = tries g + 1
      ∧ reads_as digits (tries g')
      ∧ message = "Congratulations! You've won in " +:+ digits +:+ " tries!"
      ∧ substring_of "Congratulations" message
      ∧ substring_of digits message.
Proof.
  intros Hok _ _ Heq. split.
  - rewrite Heq, evaluate_secret. by destruct Hok as [-> _].
  - exists (after_try g true), (won_message (tries g + 1)),
      (str_of_int (tries g + 1)).
    split_and!; [by apply play_turn_secret|done|done| |done| |].
    + apply str_of_int_reads.
    + by exists "", ("! You've won in " +:+ str_of_int (tries g + 1) +:+ " tries!").
    + apply (substring_of_middle "Congratulations! You've won in ").
Qed.

Lemma standard_game_ok (tries : Z) (won : bool) :
  secret_ok (standard_game tries won).
Proof.
  split; [reflexivity|].
  repeat constructor; apply (bool_decide_unpack _); vm_compute; exact I.
Defined.

Lemma C3_winning_guess_witness :
  (_evaluate_guess ["R"; "G"; "B"; "Y"] (list_of_str (upper "rgby")) = Ok (4, 0)
   ∧ ∃ g' message digits,
       play_turn (standard_game 0 false) "rgby" = (g', Ok (true, message))
       ∧ game_won g' = true
       ∧ tries g' = 0 + 1
       ∧ reads_as digits (tries g')
       ∧ message = "Congratulations! You've won in " +:+ digits +:+ " tries!"
       ∧ substring_of "Congratulations" message
       ∧ substring_of digits message)
  ∧ play_turn (standard_game 0 false) "rgby"
    = (standard_game 1 true,
       Ok (true, "Congratulations! You've won in 1 tries!")).
Proof.
  split; [|reflexivity].
  apply (C3_winning_guess (standard_game 0 false) "rgby").
  - apply standard_game_ok.
  - reflexivity.
  - reflexivity.
  - reflexivity.
Defined.

(** C4.  An invalid guess (ASCII text; after normalisation its length
    is not [CODE_LENGTH], or one of its symbols is not in the palette)
    is rejected with the diagnostic message and the game is left exactly
    as it was: no try is consumed and [game_won] is unchanged. *)
Theorem C4_invalid_guess_rejected g guess :
  isascii guess = true →
  invalid_guess g guess →
  play_turn g guess = (g, Ok (false, invalid_message))
  ∧ tries (play_turn g guess).1 = tries g
  ∧ game_won (play_turn g guess).1 = game_won g.
Proof.
  intros _ Hbad%validate_guess_false.
  by rewrite play_turn_rejected.
Qed.

Lemma C4_invalid_guess_rejected_witness :
  (invalid_guess (standard_game 3 false) "RGBX"
   ∧ play_turn (standard_game 3 false) "RGBX"
     = (standard_game 3 false, Ok (false, invalid_message))
   ∧ tries (play_turn (standard_game 3 false) "RGBX").1 = 3
   ∧ game_won (play_turn (standard_game 3 false) "RGBX").1 = false)
  ∧ play_turn (standard_game 3 false) "RG"
    = (standard_game 3 false,
       Ok (false, "Invalid guess! Please use valid colors and correct length.")).
Proof.
  split; [|reflexivity].
  assert (invalid_guess (standard_game 3 false) "RGBX") as Hbad.
  { right. exists "X". split.
    - apply (bool_decide_unpack _). vm_compute. exact I.
    - apply (bool_decide_unpack _). vm_compute. exact I. }
  split; [exact Hbad|].
  exact (C4_invalid_guess_rejected (standard_game 3 false) "RGBX"
           eq_refl Hbad).
Defined.

(** What [play_turn] does with an accepted guess that is not the secret
    once the budget is reached. *)
Lemma play_turn_last_miss g guess :
  secret_ok g →
  _validate_guess g (upper guess) = true →
  list_of_str (upper guess) ≠ secret_code g →
  MAX_TRIES (config g) ≤ tries g + 1 →
  play_turn g guess
  = (after_try g (game_won g), Ok (true, lost_message (secret_code g))).
Proof.
  intros [Hlen _] Hval Hne Hmax.
  rewrite play_turn_accepted by (done || lia). cbv zeta.
  apply validate_guess_true in Hval as [Hlen' _].
  destruct (Z.eqb_spec (exact_count (secret_code g) (list_of_str (upper guess)))
                       (CODE_LENGTH (config g))) as [Hfull|_].
  - destruct Hne. symmetry. apply exact_count_full; [|lia].
    rewrite length_list_of_str. lia.
  - by rewrite (proj2 (Z.leb_le _ _)).
Qed.

(** C5.  When the try that reaches [MAX_TRIES] is a valid guess (ASCII
    text) other than the secret code, [play_turn] accepts it and
    returns "Game Over! The secret code was " followed by the symbols of
    the secret code, concatenated; the game is then lost. *)
Theorem C5_last_try_lost g guess :
  secret_ok g →
  game_won g = false →
  tries g + 1 = MAX_TRIES (config g) →
  isascii guess = true →
  _validate_guess g (upper guess) = true →
  list_of_str (upper guess) ≠ secret_code g →
  ∃ g' message,
    play_turn g guess = (g', Ok (true, message))
    ∧ message
      = "Game Over! The secret code was " +:+ String.concat "" (secret_code g)
    ∧ substring_of (String.concat "" (secret_code g)) message
    ∧ tries g' = MAX_TRIES (config g)
    ∧ lost g'.
Proof.
  intros Hok Hopen Hlast _ Hval Hne.
  exists (after_try g (game_won g)), (lost_message (secret_code g)).
  split_and!.
  - apply play_turn_last_miss; [done..|lia].
  - unfold lost_message. by rewrite join_concat.
  - unfold lost_message. rewrite join_concat. apply substring_of_suffix.
  - done.
  - split; [done|simpl; lia].
Qed.

Lemma C5_last_try_lost_witness :
  (∃ g' message,
     play_turn (standard_game 9 false) "rgbw" = (g', Ok (true, message))
     ∧ message
       = "Game Over! The secret code was "
         +:+ String.concat "" ["R"; "G"; "B"; "Y"]
     ∧ substring_of (String.concat "" ["R"; "G"; "B"; "Y"]) message
     ∧ tries g' = 10
     ∧ lost g')
  ∧ play_turn (standard_game 9 false) "rgbw"
    = (standard_game 10 false,
       Ok (true, "Game Over! The secret code was RGBY")).
Proof.
  split; [|reflexivity].
  apply (C5_last_try_lost (standard_game 9 false) "rgbw").
  - apply standard_game_ok.
  - reflexivity.
  - reflexivity.
  - reflexivity.
  - reflexivity.
  - vm_compute. discriminate.
Defined.

(** C6.  The win check comes first: a guess (ASCII text) that
    normalises to the secret code on a try that reaches or passes
    [MAX_TRIES] leaves the game won and returns the success message with
    the numeral of the try count, which is no "Game Over" message. *)
Theorem C6_win_precedes_loss g guess :
  secret_ok g →
  MAX_TRIES (config g) ≤ tries g + 1 →
  isascii guess = true →
  list_of_str (upper guess) = secret_code g →
  ∃ g' message digits,
    play_turn g guess = (g', Ok (true, message))
    ∧ game_won g' = true
    ∧ tries g' = tries g + 1
    ∧ reads_as digits (tries g + 1)
    ∧ message = "Congratulations! You've won in " +:+ digits +:+ " tries!"
    ∧ substring_of digits message
    ∧ ∀ shown, message ≠ "Game Over! The secret code was " +:+ shown.
Proof.
  intros Hok _ _ Heq.
  exists (after_try g true), (won_message (tries g + 1)),
    (str_of_int (tries g + 1)).
  split_and!.
  - by apply play_turn_secret.
  - done.
  - done.
  - apply str_of_int_reads.
  - done.
  - apply (substring_of_middle "Congratulations! You've won in ").
  - apply won_message_not_game_over.
Qed.

Lemma C6_win_precedes_loss_witness :
  (∃ g' message digits,
     play_turn (standard_game 9 false) "RGBY" = (g', Ok (true, message))
     ∧ game_won g' = true
     ∧ tries g' = 9 + 1
     ∧ reads_as digits (9 + 1)
     ∧ message = "Congratulations! You've won in " +:+ digits +:+ " tries!"
     ∧ substring_of digits message
     ∧ ∀ shown, message ≠ "Game Over! The secret code was " +:+ shown)
  ∧ play_turn (standard_game 9 false) "RGBY"
    = (standard_game 10 true,
       Ok (true, "Congratulations! You've won in 10 tries!")).
Proof.
  split; [|reflexivity].
  apply (C6_win_precedes_loss (standard_game 9 false) "RGBY").
  - apply standard_game_ok.
  - simpl. lia.
  - reflexivity.
  - reflexivity.
Defined.




(** C8, as stated, fails: a palette with one colour, code length zero
    and zero tries is accepted, and so is an empty palette with code
    length zero; an empty palette with the default code length does make
    construction fail, with the [IndexError] of the random choice. *)
Lemma C8_counterexample :
  __init__ (Some (GameConfig.new (Some ["R"]) 0 0)) (λ _, 0%N)
  = Ok {| config := GameConfig.new (Some ["R"]) 0 0;
          secret_code := []; tries := 0; game_won := false |}
  ∧ __init__ (Some (GameConfig.new (Some []) (-1) 10)) (λ _, 0%N)
    = Ok {| config := GameConfig.new (Some []) (-1) 10;
            secret_code := []; tries := 0; game_won := false |}
  ∧ __init__ (Some (GameConfig.new (Some []) 4 10)) (λ _, 0%N)
    = Raise IndexError.
Proof. split_and!; reflexivity. Qed.

(** C8, amended.  Construction validates nothing.  It succeeds, with
    [tries = 0], [game_won = False] and a secret code of
    [max 0 CODE_LENGTH] symbols, for every [MAX_TRIES] and every
    configuration whose palette is not empty or whose code length is not
    positive; with an empty palette and a positive code length it
    fails, raising the [IndexError] of the random choice. *)
Theorem C8_construction_unchecked (cfg : GameConfig.t) (r : Random.source) :
  (COLORS cfg ≠ [] ∨ CODE_LENGTH cfg ≤ 0 →
   ∃ code,
     __init__ (Some cfg) r
     = Ok {| config := cfg; secret_code := code; tries := 0;
             game_won := false |}
     ∧ Z.of_nat (length code) = Z.max 0 (CODE_LENGTH cfg))
  ∧ (COLORS cfg = [] ∧ 0 < CODE_LENGTH cfg →
     __init__ (Some cfg) r = Raise IndexError).
Proof.
  unfold __init__, _generate_secret_code, Random.choices. split.
  - intros [Hne|Hk].
    + destruct (draws_nonempty r (COLORS cfg) (Z.to_nat (CODE_LENGTH cfg)) Hne 0)
        as (code & -> & Hlen & _).
      exists code. split; [done|lia].
    + replace (Z.to_nat (CODE_LENGTH cfg)) with O by lia.
      exists []. split; [done|simpl; lia].
  - intros [-> Hk].
    destruct (Z.to_nat (CODE_LENGTH cfg)) as [|k] eqn:Hnat; [lia|].
    by rewrite draws_empty.
Qed.

Lemma C8_construction_unchecked_witness :
  (∃ code,
     __init__ (Some (GameConfig.new (Some ["R"]) 0 0)) (λ _, 0%N)
     = Ok {| config := GameConfig.new (Some ["R"]) 0 0; secret_code := code;
             tries := 0; game_won := false |}
     ∧ Z.of_nat (length code) = Z.max 0 0)
  ∧ __init__ (Some (GameConfig.new (Some []) 4 10)) (λ _, 0%N)
    = Raise IndexError.
Proof.
  split.
  - apply (C8_construction_unchecked (GameConfig.new (Some ["R"]) 0 0)).
    left. simpl. discriminate.
  - apply (C8_construction_unchecked (GameConfig.new (Some []) 4 10)).
    split; [reflexivity|simpl; lia].
Defined.

(** C9.  For every configuration with a non-empty palette and a
    non-negative code length, and every random source,
    [_generate_secret_code] returns a list of exactly [CODE_LENGTH]
    symbols, each an element of the palette. *)
Theorem C9_secret_code_shape (cfg : GameConfig.t) (r : Random.source) :
  COLORS cfg ≠ [] →
  0 ≤ CODE_LENGTH cfg →
  ∃ code,
    _generate_secret_code cfg r = Ok code
    ∧ Z.of_nat (length code) = CODE_LENGTH cfg
    ∧ Forall (λ c, c ∈ COLORS cfg) code.
Proof.
  intros Hne Hk. unfold _generate_secret_code, Random.choices.
  destruct (draws_nonempty r (COLORS cfg) (Z.to_nat (CODE_LENGTH cfg)) Hne 0)
    as (code & -> & Hlen & Hall).
  exists code. split_and!; [done|lia|done].
Qed.

Lemma C9_secret_code_shape_witness :
  ∃ code,
    _generate_secret_code GameConfig.default
      (λ j, (N.of_nat j * 3000000000000000)%N) = Ok code
    ∧ Z.of_nat (length code) = 4
    ∧ Forall (λ c, c ∈ GameConfig.default_colors) code.
Proof.
  apply (C9_secret_code_shape GameConfig.default).
  - simpl. discriminate.
  - simpl. lia.
Defined.

(** C10.  Scoring is symmetric: for two symbol lists of the same length,
    scoring one as the guess against the other as the secret returns
    the same pair of counts as scoring them the other way round. *)
Theorem C10_scoring_symmetric (s gs : list string) :
  length s = length gs →
  ∃ exact color,
    _evaluate_guess s gs = Ok (exact, color)
    ∧ _evaluate_guess gs s = Ok (exact, color).
Proof.
  intros Hlen. eexists _, _.
  rewrite !evaluate_guess_spec by lia. split; [done|].
  by rewrite (exact_count_comm gs s),
    (comm (∩) (remaining (mark s gs)) (remaining (mark gs s))).
Qed.

Lemma C10_scoring_symmetric_witness :
  ∃ exact color,
    _evaluate_guess ["R"; "R"; "G"; "B"] ["G"; "R"; "R"; "R"]
    = Ok (exact, color)
    ∧ _evaluate_guess ["G"; "R"; "R"; "R"] ["R"; "R"; "G"; "B"]
      = Ok (exact, color).
Proof.
  apply (C10_scoring_symmetric ["R"; "R"; "G"; "B"] ["G"; "R"; "R"; "R"]).
  reflexivity.
Defined.

End Claims.

(** * Further properties of the code *)

(** ** Scoring *)

Section ScoringFacts.

Implicit Types s g : list string.

(** Exact and colour matches together count the symbols the two lists
    share, each occurrence once. *)
Lemma score_total s g :
  exact_count s g + color_count s g
  = Z.of_nat (size (list_to_set_disj s ∩ list_to_set_disj g : gmultiset string)).
Proof.
  unfold color_count.
  rewrite (matched_remaining s g), (matched_remaining g s), (matched_comm g s).
  rewrite <- size_matched, <- Nat2Z.inj_add, <- gmultiset_size_disj_union.
  do 2 f_equal. rewrite (comm (∩) (remaining (mark g s))).
  symmetry. apply meet_disj_union_l.
Qed.

Lemma evaluate_guess_counts s g :
  (length s ≤ length g)%nat →
  _evaluate_guess s g = Ok (exact_count s g, color_count s g).
Proof. apply evaluate_guess_spec. Qed.

(** X1.  [_evaluate_guess] raises exactly when the guess is shorter than the
    secret, and what it raises is [IndexError]; a guess that is longer
    is scored. *)
Theorem evaluate_guess_raises_iff s g :
  (∀ e, _evaluate_guess s g = Raise e → e = IndexError)
  ∧ (_evaluate_guess s g = Raise IndexError ↔ (length g < length s)%nat).
Proof.
  destruct (le_lt_dec (length s) (length g)) as [Hle|Hlt].
  - rewrite evaluate_guess_counts by done. split; [done|].
    split; [done|lia].
  - rewrite evaluate_guess_short by done. split; [by intros e [= <-]|done].
Qed.

(** X2.  The sum of exact and colour matches does not depend on the order of
    the symbols: permuting the secret, the guess or both leaves it
    unchanged. *)
Theorem score_total_permutation s s' g g' :
  length s = length g →
  s ≡ₚ s' →
  g ≡ₚ g' →
  ∃ exact color exact' color',
    _evaluate_guess s g = Ok (exact, color)
    ∧ _evaluate_guess s' g' = Ok (exact', color')
    ∧ exact + color = exact' + color'.
Proof.
  intros Hlen Hs Hg. eexists _, _, _, _.
  rewrite !evaluate_guess_counts
    by (rewrite <- ?Hs, <- ?Hg; lia).
  split_and!; [done..|]. rewrite !score_total.
  by rewrite (list_to_set_disj_perm _ _ Hs), (list_to_set_disj_perm _ _ Hg).
Qed.

Lemma score_total_permutation_witness :
  ∃ exact color exact' color',
    _evaluate_guess ["R"; "R"; "G"; "B"] ["R"; "G"; "R"; "B"]
    = Ok (exact, color)
    ∧ _evaluate_guess ["R"; "G"; "R"; "B"] ["G"; "R"; "R"; "B"]
      = Ok (exact', color')
    ∧ exact + color = exact' + color'.
Proof.
  apply (score_total_permutation ["R"; "R"; "G"; "B"] ["R"; "G"; "R"; "B"]
                                 ["R"; "G"; "R"; "B"] ["G"; "R"; "R"; "B"]).
  - reflexivity.
  - apply perm_skip, perm_swap.
  - apply perm_swap.
Defined.

(** X3.  Among guesses of the secret's length, only the secret itself gets
    every position right, and it gets no colour match. *)
Theorem full_score_iff_equal s g :
  length s = length g →
  (∀ color, _evaluate_guess s g = Ok (Z.of_nat (length s), color) →
            g = s ∧ color = 0)
  ∧ (g = s → _evaluate_guess s g = Ok (Z.of_nat (length s), 0)).
Proof.
  intros Hlen. split.
  - intros color. rewrite evaluate_guess_counts by lia.
    intros [= Hfull Hcolor].
    apply exact_count_full in Hfull as ->; [|done].
    split; [done|]. rewrite <- Hcolor. unfold color_count.
    by rewrite remaining_mark_diag, (left_absorb ∅ (∩)), gmultiset_size_empty.
  - intros ->. apply evaluate_secret.
Qed.

Lemma full_score_iff_equal_witness :
  (∀ color,
     _evaluate_guess ["R"; "G"] ["R"; "G"] = Ok (Z.of_nat (length ["R"; "G"]), color) →
     ["R"; "G"] = ["R"; "G"] ∧ color = 0)
  ∧ (["R"; "G"] = ["R"; "G"] →
     _evaluate_guess ["R"; "G"] ["R"; "G"] = Ok (Z.of_nat (length ["R"; "G"]), 0)).
Proof. apply (full_score_iff_equal ["R"; "G"] ["R"; "G"]). reflexivity. Defined.

(** X4.  A guess at least as long as the secret scores no match of either
    kind exactly when it shares no symbol with the secret. *)
Theorem zero_score_iff_disjoint s g :
  (length s ≤ length g)%nat →
  _evaluate_guess s g = Ok (0, 0) ↔ ∀ x, x ∈ g → x ∉ s.
Proof.
  intros Hle. rewrite evaluate_guess_counts by done.
  pose proof (score_total s g) as Htotal.
  pose proof (exact_count_nonneg s g) as He.
  assert (0 ≤ color_count s g) as Hc by (unfold color_count; lia).
  split.
  - intros [= He0 Hc0]. rewrite He0, Hc0 in Htotal.
    assert (size (list_to_set_disj s ∩ list_to_set_disj g : gmultiset string)
            = 0%nat) as Hsize by lia.
    apply gmultiset_size_empty_iff in Hsize.
    intros x Hg Hs.
    assert (x ∈ (list_to_set_disj s ∩ list_to_set_disj g : gmultiset string))
      as Hin by (apply gmultiset_elem_of_intersection;
                 by rewrite !elem_of_list_to_set_disj).
    rewrite Hsize in Hin. by apply gmultiset_not_elem_of_empty in Hin.
  - intros Hdisj.
    destruct (gmultiset_choose_or_empty
                (list_to_set_disj s ∩ list_to_set_disj g : gmultiset string))
      as [[x Hx]|Hempty].
    + apply gmultiset_elem_of_intersection in Hx as [Hs Hg].
      rewrite elem_of_list_to_set_disj in Hs, Hg. by destruct (Hdisj x).
    + rewrite Hempty, gmultiset_size_empty in Htotal.
      do 2 f_equal; lia.
Qed.

Lemma zero_score_iff_disjoint_witness :
  _evaluate_guess ["R"; "G"] ["B"; "Y"; "W"] = Ok (0, 0)
  ↔ ∀ x, x ∈ ["B"; "Y"; "W"] → x ∉ ["R"; "G"].
Proof.
  apply (zero_score_iff_disjoint ["R"; "G"] ["B"; "Y"; "W"]). simpl. lia.
Defined.

End ScoringFacts.

(** ** Turns *)

Section TurnFacts.

Implicit Types g : MastermindGame.t.
Implicit Types guess : string.

Lemma upper_lower_char (c : ascii) : upper_char (lower_char c) = upper_char c.
Proof. destruct c as [[] [] [] [] [] [] [] []]; reflexivity. Qed.

Lemma upper_lower (s : string) : upper (lower s) = upper s.
Proof.
  induction s as [|c s IH]; simpl; [done|].
  by rewrite upper_lower_char, IH.
Qed.

(** X5.  For a guess that is ASCII text the case in which it is typed
    does not matter: [play_turn] on the guess lower-cased or upper-cased
    returns what it returns on the guess as typed, and leaves the same
    game. *)
Theorem play_turn_case_insensitive g guess :
  isascii guess = true →
  play_turn g (lower guess) = play_turn g guess
  ∧ play_turn g (upper guess) = play_turn g guess.
Proof. intros _. unfold play_turn. by rewrite upper_lower, upper_idemp. Qed.

Lemma play_turn_case_insensitive_witness :
  (play_turn (standard_game 0 false) (lower "rGbY")
   = play_turn (standard_game 0 false) "rGbY"
   ∧ play_turn (standard_game 0 false) (upper "rGbY")
     = play_turn (standard_game 0 false) "rGbY")
  ∧ lower "rGbY" = "rgby" ∧ upper "rGbY" = "RGBY".
Proof.
  split; [|split; reflexivity].
  apply (play_turn_case_insensitive (standard_game 0 false) "rGbY").
  reflexivity.
Defined.

(** What a call does to the fields, whatever it returns or raises. *)
Lemma play_turn_fields g guess :
  config (play_turn g guess).1 = config g
  ∧ secret_code (play_turn g guess).1 = secret_code g
  ∧ tries (play_turn g guess).1
    = tries g + (if _validate_guess g (upper guess) then 1 else 0)
  ∧ (game_won g = true → game_won (play_turn g guess).1 = true).
Proof.
  destruct (_validate_guess g (upper guess)) eqn:Hval.
  - by destruct (play_turn_counts g guess Hval) as (won & -> & Hwon).
  - rewrite play_turn_rejected by done. simpl. split_and!; (done || lia).
Qed.

(** [_validate_guess] reads the game through [config] only. *)
Lemma validate_guess_config g g' guess :
  config g' = config g → _validate_guess g' guess = _validate_guess g guess.
Proof. unfold _validate_guess. by intros ->. Qed.

(** X6.  On a well-formed game [play_turn] never raises on a guess that
    is ASCII text; the guess is accepted exactly when it has
    [CODE_LENGTH] characters whose upper case is in the palette; and a
    try is counted exactly when the guess is accepted. *)
Theorem play_turn_never_raises g guess :
  secret_ok g →
  isascii guess = true →
  ∃ g' accepted message,
    play_turn g guess = (g', Ok (accepted, message))
    ∧ (accepted = true
       ↔ Z.of_nat (String.length guess) = CODE_LENGTH (config g)
         ∧ Forall (λ c, c ∈ COLORS (config g)) (list_of_str (upper guess)))
    ∧ tries g' = tries g + (if accepted then 1 else 0)
    ∧ secret_ok g'.
Proof.
  intros Hok _. pose proof Hok as [Hlen _].
  pose proof (play_turn_secret_ok g guess Hok) as Hok'.
  pose proof (play_turn_fields g guess) as (_ & _ & Htries & _).
  pose proof (validate_guess_true g guess) as Hiff.
  rewrite length_upper in Hiff.
  destruct (_validate_guess g (upper guess)) eqn:Hval.
  - rewrite play_turn_accepted in * by (done || lia). cbv zeta in *.
    destruct (_ =? _); [|destruct (_ <=? _)];
      eexists _, true, _; by split_and!.
  - rewrite play_turn_rejected in * by done.
    eexists _, false, _. by split_and!.
Qed.

Lemma play_turn_never_raises_witness :
  ∃ g' accepted message,
    play_turn (standard_game 2 false) "wy" = (g', Ok (accepted, message))
    ∧ (accepted = true
       ↔ Z.of_nat (String.length "wy") = 4
         ∧ Forall (λ c, c ∈ GameConfig.default_colors)
                  (list_of_str (upper "wy")))
    ∧ tries g' = 2 + (if accepted then 1 else 0)
    ∧ secret_ok g'.
Proof.
  apply (play_turn_never_raises (standard_game 2 false) "wy").
  - apply standard_game_ok.
  - reflexivity.
Defined.

(** X7.  A valid guess (ASCII text) that is not the secret, before the
    last try: the game goes on, the call reports the two counts
    [_evaluate_guess] returns, as numerals, and fewer than
    [CODE_LENGTH] positions are exact. *)
Theorem play_turn_goes_on g guess :
  secret_ok g →
  isascii guess = true →
  _validate_guess g (upper guess) = true →
  list_of_str (upper guess) ≠ secret_code g →
  tries g + 1 < MAX_TRIES (config g) →
  ∃ exact color exact_digits color_digits,
    _evaluate_guess (secret_code g) (list_of_str (upper guess))
    = Ok (exact, color)
    ∧ 0 ≤ exact < CODE_LENGTH (config g)
    ∧ reads_as exact_digits exact
    ∧ reads_as color_digits color
    ∧ play_turn g guess
      = (after_try g (game_won g),
         Ok (true, "Exact matches: " +:+ exact_digits
                   +:+ ", Color matches: " +:+ color_digits)).
Proof.
  intros [Hlen _] _ Hval Hne Hmax.
  rewrite play_turn_accepted by (done || lia). cbv zeta.
  apply validate_guess_true in Hval as [Hlen' _].
  rewrite <- length_list_of_str in Hlen'.
  rewrite evaluate_guess_counts by lia.
  eexists _, _, (str_of_int _), (str_of_int _). split; [done|].
  pose proof (exact_count_nonneg (secret_code g) (list_of_str (upper guess))).
  pose proof (exact_count_le (secret_code g) (list_of_str (upper guess))).
  destruct (Z.eqb_spec (exact_count (secret_code g) (list_of_str (upper guess)))
                       (CODE_LENGTH (config g))) as [Hfull|Hless].
  - destruct Hne. symmetry. apply exact_count_full; lia.
  - split; [lia|]. split; [apply str_of_int_reads|].
    split; [apply str_of_int_reads|].
    by rewrite (proj2 (Z.leb_gt _ _)) by lia.
Qed.

Lemma play_turn_goes_on_witness :
  (∃ exact color exact_digits color_digits,
     _evaluate_guess ["R"; "G"; "B"; "Y"] (list_of_str (upper "rybw"))
     = Ok (exact, color)
     ∧ 0 ≤ exact < 4
     ∧ reads_as exact_digits exact
     ∧ reads_as color_digits color
     ∧ play_turn (standard_game 3 false) "rybw"
       = (after_try (standard_game 3 false) false,
          Ok (true, "Exact matches: " +:+ exact_digits
                    +:+ ", Color matches: " +:+ color_digits)))
  ∧ play_turn (standard_game 3 false) "rybw"
    = (standard_game 4 false,
       Ok (true, "Exact matches: 2, Color matches: 1")).
Proof.
  split; [|reflexivity].
  apply (play_turn_goes_on (standard_game 3 false) "rybw").
  - apply standard_game_ok.
  - reflexivity.
  - reflexivity.
  - vm_compute. discriminate.
  - simpl. lia.
Defined.

(** When a call leaves the game won, it was won before or the guess
    normalises to the secret code. *)
Lemma play_turn_won_inv g guess :
  secret_ok g →
  game_won (play_turn g guess).1 = true →
  game_won g = true ∨ list_of_str (upper guess) = secret_code g.
Proof.
  intros [Hlen _]. destruct (_validate_guess g (upper guess)) eqn:Hval.
  - rewrite play_turn_accepted by (done || lia). cbv zeta.
    apply validate_guess_true in Hval as [Hlen' _].
    rewrite <- length_list_of_str in Hlen'.
    destruct (Z.eqb_spec (exact_count (secret_code g)
                                      (list_of_str (upper guess)))
                         (CODE_LENGTH (config g))) as [Hfull|_].
    + intros _. right. symmetry. apply exact_count_full; lia.
    + destruct (_ <=? _); simpl; by left.
  - rewrite play_turn_rejected by done. by left.
Qed.

(** X8.  For a guess that is ASCII text, a well-formed game is won after
    a call exactly when it was won before or the guess, upper-cased, is
    the secret code. *)
Theorem won_iff_secret_guessed g guess :
  secret_ok g →
  isascii guess = true →
  game_won (play_turn g guess).1 = true
  ↔ game_won g = true ∨ list_of_str (upper guess) = secret_code g.
Proof.
  intros Hok _. split; [by apply play_turn_won_inv|].
  intros [Hwon|Heq].
  - by apply play_turn_fields.
  - by rewrite play_turn_secret.
Qed.

Lemma won_iff_secret_guessed_witness :
  game_won (play_turn (standard_game 3 false) "rgby").1 = true
  ↔ game_won (standard_game 3 false) = true
    ∨ list_of_str (upper "rgby") = secret_code (standard_game 3 false).
Proof.
  apply (won_iff_secret_guessed (standard_game 3 false) "rgby").
  - apply standard_game_ok.
  - reflexivity.
Defined.

End TurnFacts.

(** ** Symbols that can be typed *)

Section Typable.

Implicit Types g : MastermindGame.t.

Lemma typable_normalised (s c : string) :
  c ∈ list_of_str (upper s) → typable c.
Proof.
  induction s as [|a s IH]; simpl; [by intros ?%elem_of_nil|].
  intros [->|Hin]%elem_of_cons; [|by apply IH].
  exists (upper_char a). by rewrite upper_char_idemp.
Qed.

(** [list(''.join(l).upper())] gives [l] back when every symbol of [l]
    is one upper-case character. *)
Lemma list_of_upper_join (l : list string) :
  Forall typable l → list_of_str (upper (join l)) = l.
Proof.
  induction 1 as [|c l (a & -> & Ha) _ IH]; [done|].
  change (join (String a "" :: l)) with (String a (join l)).
  simpl. by rewrite Ha, IH.
Qed.

(** X9.  The code that the loss message reveals, typed back as a guess,
    wins: for a well-formed game over a palette of single upper-case
    ASCII characters, the joined secret code splits back into the secret
    code and [play_turn] on it returns the success message. *)
Theorem revealed_code_wins g :
  secret_ok g →
  Forall typable (COLORS (config g)) →
  Forall (λ c, isascii c = true) (COLORS (config g)) →
  isascii (join (secret_code g)) = true
  ∧ list_of_str (upper (join (secret_code g))) = secret_code g
  ∧ play_turn g (join (secret_code g))
    = (after_try g true, Ok (true, won_message (tries g + 1))).
Proof.
  intros Hok Hpal Hascii.
  assert (Forall typable (secret_code g)
          ∧ Forall (λ c, isascii c = true) (secret_code g)) as [Htyp Hasc].
  { destruct Hok as [_ Hin]. rewrite !list.Forall_forall in *. auto. }
  assert (list_of_str (upper (join (secret_code g))) = secret_code g) as Heq
    by (by apply list_of_upper_join).
  split_and!; [|done|by apply play_turn_secret].
  clear Heq. induction Htyp as [|c l (a & -> & _) _ IH]; [done|].
  apply list.Forall_cons in Hasc as [Hc Hl].
  change (join (String a "" :: l)) with (String a (join l)).
  simpl in *. rewrite andb_true_r in Hc. by rewrite Hc, IH.
Qed.

Lemma default_colors_typable : Forall typable GameConfig.default_colors.
Proof. repeat constructor; by eexists. Defined.

Lemma revealed_code_wins_witness :
  (isascii (join ["R"; "G"; "B"; "Y"]) = true
   ∧ list_of_str (upper (join ["R"; "G"; "B"; "Y"])) = ["R"; "G"; "B"; "Y"]
   ∧ play_turn (standard_game 4 false) (join ["R"; "G"; "B"; "Y"])
     = (after_try (standard_game 4 false) true,
        Ok (true, won_message (4 + 1))))
  ∧ join ["R"; "G"; "B"; "Y"] = "RGBY"
  ∧ won_message (4 + 1) = "Congratulations! You've won in 5 tries!".
Proof.
  split; [|split; reflexivity].
  apply (revealed_code_wins (standard_game 4 false)).
  - apply standard_game_ok.
  - apply default_colors_typable.
  - repeat constructor.
Defined.

End Typable.

(** ** Sequences of turns *)

Section Sequences.

Implicit Types g : MastermindGame.t.

Lemma accepted_count_config g g' (guesses : list string) :
  config g' = config g → accepted_count g' guesses = accepted_count g guesses.
Proof.
  intros Hc. unfold accepted_count. do 2 f_equal.
  induction guesses as [|guess guesses IH]; simpl; [done|].
  by rewrite (validate_guess_config g g' _ Hc), IH.
Qed.

Lemma accepted_count_cons g (guess : string) (guesses : list string) :
  accepted_count g (guess :: guesses)
  = (if _validate_guess g (upper guess) then 1 else 0)
    + accepted_count g guesses.
Proof.
  unfold accepted_count. simpl.
  destruct (_validate_guess g (upper guess)); simpl; lia.
Qed.

Lemma accepted_count_bounds g (guesses : list string) :
  0 ≤ accepted_count g guesses ≤ Z.of_nat (length guesses).
Proof.
  induction guesses as [|guess guesses IH].
  - unfold accepted_count. simpl. lia.
  - rewrite accepted_count_cons. cbn [length].
    destruct (_validate_guess g (upper guess)); lia.
Qed.

(** X10.  Over any sequence of calls the configuration and the secret
    code stay as they are and [tries] grows by at most one per call;
    when the guesses are ASCII text it grows by exactly the number of
    guesses [_validate_guess] accepts: rejected guesses are never
    counted and accepted ones always are. *)
Theorem play_turns_tries g (guesses : list string) :
  (config (play_turns g guesses) = config g
   ∧ secret_code (play_turns g guesses) = secret_code g
   ∧ tries g ≤ tries (play_turns g guesses)
             ≤ tries g + Z.of_nat (length guesses))
  ∧ (Forall (λ guess, isascii guess = true) guesses →
     tries (play_turns g guesses) = tries g + accepted_count g guesses).
Proof.
  assert (config (play_turns g guesses) = config g
          ∧ secret_code (play_turns g guesses) = secret_code g
          ∧ tries (play_turns g guesses) = tries g + accepted_count g guesses)
    as (Hc & Hs & Ht).
  { revert g. induction guesses as [|guess guesses IH]; intros g.
    - unfold accepted_count. simpl. split_and!; (done || lia).
    - unfold play_turns in *. cbn [foldl].
      destruct (IH (play_turn g guess).1) as (Hc & Hs & Ht).
      destruct (play_turn_fields g guess) as (Hc1 & Hs1 & Ht1 & _).
      rewrite Hc, Hs, Ht, Hc1, Hs1, Ht1, accepted_count_cons.
      rewrite (accepted_count_config g _ _ Hc1).
      split_and!; (done || lia). }
  pose proof (accepted_count_bounds g guesses).
  split_and!; (done || lia).
Qed.

Lemma play_turns_tries_witness :
  tries (play_turns (standard_game 0 false) ["rg"; "rgbw"; "oops"; "WWWW"])
  = 0 + accepted_count (standard_game 0 false) ["rg"; "rgbw"; "oops"; "WWWW"]
  ∧ accepted_count (standard_game 0 false) ["rg"; "rgbw"; "oops"; "WWWW"] = 2.
Proof.
  split; [|reflexivity].
  apply (play_turns_tries (standard_game 0 false)
           ["rg"; "rgbw"; "oops"; "WWWW"]).
  repeat constructor.
Defined.

(** X11.  A secret code with a symbol that cannot be typed (a palette entry
    that is not one upper-case character, such as a lower-case letter or
    a word) is never guessed: no sequence of calls wins the game. *)
Theorem untypable_secret_never_won g (guesses : list string) :
  secret_ok g →
  game_won g = false →
  ¬ Forall typable (secret_code g) →
  game_won (play_turns g guesses) = false.
Proof.
  intros Hok Hopen Hbad. revert g Hok Hopen Hbad.
  induction guesses as [|guess guesses IH]; intros g Hok Hopen Hbad; [done|].
  unfold play_turns in *. cbn [foldl].
  destruct (play_turn_fields g guess) as (_ & Hs1 & _ & _).
  apply IH.
  - by apply play_turn_secret_ok.
  - apply not_true_is_false. intros Hwon.
    destruct (play_turn_won_inv g guess Hok Hwon) as [Hw|Heq]; [congruence|].
    apply Hbad. rewrite <- Heq. apply list.Forall_forall.
    intros c. apply typable_normalised.
  - by rewrite Hs1.
Qed.

Lemma untypable_secret_never_won_witness :
  game_won
    (play_turns {| config := GameConfig.new (Some ["r"; "g"]) 2 10;
                   secret_code := ["r"; "g"]; tries := 0; game_won := false |}
                ["rg"; "RG"; "gr"])
  = false.
Proof.
  apply (untypable_secret_never_won
           {| config := GameConfig.new (Some ["r"; "g"]) 2 10;
              secret_code := ["r"; "g"]; tries := 0; game_won := false |}).
  - split; [reflexivity|].
    repeat constructor; apply (bool_decide_unpack _); vm_compute; exact I.
  - reflexivity.
  - intros Hall. inversion Hall as [|? ? (a & Heq & Ha) _]; subst.
    injection Heq as <-. vm_compute in Ha. discriminate Ha.
Defined.

End Sequences.

(** ** The loop and [main] *)

Section LoopFacts.

Import Main.

Implicit Types g : MastermindGame.t.

(** The [while] condition, as a proposition. *)
Lemma loop_condition g :
  negb (game_won g) && (tries g <? MAX_TRIES (config g)) = true
  ↔ in_progress g.
Proof.
  unfold in_progress.
  rewrite andb_true_iff, negb_true_iff, Z.ltb_lt. done.
Qed.

Lemma loop_finished g (stdin : list string) :
  ¬ in_progress g → loop g stdin = (g, [], Returned).
Proof.
  rewrite <- loop_condition. intros Hno%not_true_is_false.
  destruct stdin; simpl; by rewrite Hno.
Qed.

(** One round of the loop on a well-formed game in progress, for a line
    that is not the quit command. *)
Lemma loop_round g (line : string) (stdin : list string) :
  secret_ok g →
  in_progress g →
  lower (strip line) ≠ "q" →
  ∃ g1 accepted feedback,
    play_turn g (strip line) = (g1, Ok (accepted, feedback))
    ∧ secret_ok g1
    ∧ loop g (line :: stdin)
      = (let '(g2, out, e) := loop g1 stdin in
         (g2,
          Prompt (nl +:+ "Enter guess #" +:+ str_of_int (tries g + 1) +:+ ": ")
            :: Print feedback :: out,
          e)).
Proof.
  intros Hok Hopen%loop_condition Hline.
  pose proof (play_turn_secret_ok g (strip line) Hok) as Hok1.
  assert (∃ g1 accepted feedback,
            play_turn g (strip line) = (g1, Ok (accepted, feedback)))
    as (g1 & accepted & feedback & Hturn).
  { destruct Hok as [Hlen _].
    destruct (_validate_guess g (upper (strip line))) eqn:Hval.
    - rewrite play_turn_accepted by (done || lia). cbv zeta.
      destruct (_ =? _); [|destruct (_ <=? _)]; by eexists _, _, _.
    - rewrite play_turn_rejected by done. by eexists _, _, _. }
  exists g1, accepted, feedback. rewrite Hturn in Hok1.
  split_and!; [done..|].
  cbn [loop]. rewrite Hopen, bool_decide_eq_false_2 by done.
  by rewrite Hturn.
Qed.

(** On a well-formed game the loop ends by returning, once the game is
    over, or, with the game still in progress, by the quit command or
    because the input ran out; the game stays well formed. *)
Lemma loop_safe (stdin : list string) : ∀ g g' out e,
  secret_ok g →
  loop g stdin = (g', out, e) →
  secret_ok g'
  ∧ (e = Returned ∧ ¬ in_progress g'
     ∨ (e = Exited 0 ∨ e = Failed EOFError) ∧ in_progress g').
Proof.
  induction stdin as [|line stdin IH]; intros g g' out e Hok.
  - destruct (decide (in_progress g)) as [Hopen|Hdone];
      [|rewrite loop_finished by done; intros [= <- <- <-]; auto].
    simpl. rewrite (proj2 (loop_condition g) Hopen).
    intros [= <- <- <-]. auto.
  - destruct (decide (in_progress g)) as [Hopen|Hdone];
      [|rewrite loop_finished by done; intros [= <- <- <-]; auto].
    destruct (decide (lower (strip line) = "q")) as [Hquit|Hline].
    + cbn [loop]. rewrite (proj2 (loop_condition g) Hopen).
      rewrite bool_decide_eq_true_2 by done. intros [= <- <- <-]. auto.
    + destruct (loop_round g line stdin Hok Hopen Hline)
        as (g1 & accepted & feedback & _ & Hok1 & ->).
      destruct (loop g1 stdin) as [[g2 out2] e2] eqn:Hrest.
      intros [= <- <- <-]. by eapply IH.
Qed.

(** X12.  The loop never lets an exception of the game escape: on a
    well-formed game it returns, with the game over, or it stops with
    the game still in progress, by [sys.exit(0)] after the quit command
    or with the [EOFError] of [input] when the input has run out. *)
Theorem loop_never_crashes g (stdin : list string) :
  secret_ok g →
  ∃ g' out e,
    loop g stdin = (g', out, e)
    ∧ (e = Returned ∧ ¬ in_progress g'
       ∨ (e = Exited 0 ∨ e = Failed EOFError) ∧ in_progress g').
Proof.
  intros Hok. destruct (loop g stdin) as [[g' out] e] eqn:Hloop.
  exists g', out, e. split; [done|]. by eapply loop_safe.
Qed.

Lemma loop_never_crashes_witness :
  ∃ g' out e,
    loop (standard_game 8 false) ["rgbw"; "oops"; "wwww"; "rgby"] = (g', out, e)
    ∧ (e = Returned ∧ ¬ in_progress g'
       ∨ (e = Exited 0 ∨ e = Failed EOFError) ∧ in_progress g').
Proof.
  apply (loop_never_crashes (standard_game 8 false)).
  apply standard_game_ok.
Defined.

(** X13.  When the loop returns from a game that was in progress, the last
    thing it printed is the verdict: the success message with the
    number of tries if the game is won, and the message revealing the
    secret code otherwise. *)
Theorem loop_ends_with_verdict (stdin : list string) : ∀ g g' out,
  secret_ok g →
  in_progress g →
  loop g stdin = (g', out, Returned) →
  list.last out
  = Some (Print (if game_won g' then won_message (tries g')
                 else lost_message (secret_code g'))).
Proof.
  induction stdin as [|line stdin IH]; intros g g' out Hok Hopen.
  - simpl. by rewrite (proj2 (loop_condition g) Hopen).
  - destruct (decide (lower (strip line) = "q")) as [Hquit|Hline].
    { cbn [loop]. rewrite (proj2 (loop_condition g) Hopen).
      by rewrite bool_decide_eq_true_2 by done. }
    destruct (loop_round g line stdin Hok Hopen Hline)
      as (g1 & accepted & feedback & Hturn & Hok1 & ->).
    destruct (decide (in_progress g1)) as [Hopen1|Hdone1].
    + destruct (loop g1 stdin) as [[g2 out2] e2] eqn:Hrest.
      intros [= <- <- ->].
      specialize (IH g1 g2 out2 Hok1 Hopen1 Hrest).
      destruct out2 as [|ev out2]; [done|]. exact IH.
    + rewrite loop_finished by done. intros [= <- <-]. simpl.
      do 2 f_equal.
      destruct Hok as [Hlen _]. destruct Hopen as [Hwon Hlt].
      destruct (_validate_guess g (upper (strip line))) eqn:Hval.
      * rewrite play_turn_accepted in Hturn by (done || lia).
        cbv zeta in Hturn.
        destruct (_ =? _); [by injection Hturn as <- _ <-|].
        destruct (Z.leb_spec (MAX_TRIES (config g)) (tries g + 1));
          injection Hturn as <- _ <-; simpl; rewrite Hwon; [done|].
        destruct Hdone1. split; simpl; [done|lia].
      * rewrite play_turn_rejected in Hturn by done.
        injection Hturn as <- _ _. by destruct Hdone1.
Qed.

Lemma loop_ends_with_verdict_witness :
  list.last [Prompt (nl +:+ "Enter guess #10: ");
        Print (lost_message ["R"; "G"; "B"; "Y"])]
  = Some (Print (if game_won (standard_game 10 false)
                 then won_message (tries (standard_game 10 false))
                 else lost_message (secret_code (standard_game 10 false)))).
Proof.
  apply (loop_ends_with_verdict ["rgbw"; "rgby"] (standard_game 9 false)).
  - apply standard_game_ok.
  - split; [reflexivity|simpl; lia].
  - reflexivity.
Defined.

(** X14.  With a negative code length [_validate_guess] rejects every guess,
    so the loop leaves the game as it found it, and a game in progress
    can only be left by the quit command or at the end of the input. *)
Theorem negative_length_never_ends (stdin : list string) : ∀ g,
  CODE_LENGTH (config g) < 0 →
  (∀ guess, play_turn g guess = (g, Ok (false, invalid_message)))
  ∧ ∃ out e,
      loop g stdin = (g, out, e)
      ∧ (in_progress g → e = Exited 0 ∨ e = Failed EOFError).
Proof.
  intros g Hneg.
  assert (∀ guess, play_turn g guess = (g, Ok (false, invalid_message)))
    as Hreject.
  { intros guess. apply play_turn_rejected, validate_guess_false. left. lia. }
  split; [done|].
  induction stdin as [|line stdin (out & e & IH & Hend)].
  - simpl. destruct (_ && _) eqn:Hcond; eexists _, _; (split; [done|]); auto.
    intros Hopen%loop_condition. congruence.
  - cbn [loop]. destruct (_ && _) eqn:Hcond.
    + destruct (bool_decide _); [eexists _, _; split; [done|auto]|].
      rewrite Hreject, IH. eexists _, _. split; [done|auto].
    + eexists _, _. split; [done|].
      intros Hopen%loop_condition. congruence.
Qed.

Lemma negative_length_never_ends_witness :
  (∀ guess,
     play_turn {| config := GameConfig.new None (-1) 10; secret_code := [];
                  tries := 0; game_won := false |} guess
     = ({| config := GameConfig.new None (-1) 10; secret_code := [];
           tries := 0; game_won := false |}, Ok (false, invalid_message)))
  ∧ ∃ out e,
      loop {| config := GameConfig.new None (-1) 10; secret_code := [];
              tries := 0; game_won := false |} [""; "RGBY"]
      = ({| config := GameConfig.new None (-1) 10; secret_code := [];
            tries := 0; game_won := false |}, out, e)
      ∧ (in_progress {| config := GameConfig.new None (-1) 10;
                        secret_code := []; tries := 0; game_won := false |} →
         e = Exited 0 ∨ e = Failed EOFError).
Proof.
  apply (negative_length_never_ends [""; "RGBY"]
           {| config := GameConfig.new None (-1) 10; secret_code := [];
              tries := 0; game_won := false |}).
  simpl. lia.
Defined.

(** X15.  [main] always gets its game built, whatever the random source:
    it prints the instructions for the default configuration first,
    keeps the game well formed with at most ten tries used, and ends by
    returning with the game won or all ten tries used, by the quit
    command, or with [EOFError] at the end of the input. *)
Theorem main_runs (r : Random.source) (stdin : list string) :
  ∃ g' out e,
    main r stdin = (Some g', print_instructions GameConfig.default ++ out, e)
    ∧ config g' = GameConfig.default
    ∧ secret_ok g'
    ∧ 0 ≤ tries g' ≤ 10
    ∧ (e = Returned ∧ terminal g'
       ∨ (e = Exited 0 ∨ e = Failed EOFError) ∧ in_progress g').
Proof.
  unfold main.
  change (__init__ None r) with (__init__ (Some GameConfig.default) r).
  destruct (init_secret_ok GameConfig.default r) as (g & -> & Hc & Ht & Hw & Hok);
    [done|simpl; lia|].
  destruct (loop g stdin) as [[g' out] e] eqn:Hloop.
  assert (tries g ≤ MAX_TRIES (config g)) as Hle by (rewrite Hc, Ht; simpl; lia).
  destruct (loop_bounded stdin g Hle g' out e Hloop) as (Hc' & _ & Hb & Hterm).
  destruct (loop_safe stdin g g' out e Hok Hloop) as (Hok' & Hend).
  exists g', out, e. rewrite Hc, Ht in *. simpl in Hb.
  split_and!; [done|congruence|done|lia|lia|].
  destruct Hend as [[-> _]|Hend]; [left|by right].
  split; [done|]. unfold terminal. rewrite Hc'. by apply Hterm.
Qed.

End LoopFacts.
